(** * SmartPath: the Philippine highway navigator (Uniform Cost Search)

    A shallow embedding of [PhilippineHighwayNavigatorUCS] from
    [gps_navigation_ucs.py] and the properties of its graph store, its
    search loop, its report, its built-in scenarios and the course of [main].

    Conventions of the embedding.
    - Python numbers are idealised as exact rationals ([Qc], canonical
      fractions, so that numeric equality is Leibniz equality).  Rounding of
      binary floating point is outside the model; the costs of the one
      concrete network with fractional inputs are checked in binary64 too.
    - Location identifiers are strings, as in every scenario of the source.
    - [self.graph] and [self.locations] are dictionaries: [gmap string _].
    - Console output, [input], [time.sleep] and [os.system] are not modelled,
      except for the two diagnostics that tell the failure branches of
      [ucs_search] apart; [show_steps] and [delay] only drive that output.
      [main] is taken from the values its inputs are read into: the integer
      of the selection and the two identifiers after [.strip().upper()].
    - The [while] loop of [ucs_search] is a fuelled fixpoint: one unit of fuel
      per iteration, [None] when the fuel runs out.  With negative costs the
      loop of the source need not stop; with non-negative costs some fuel is
      always enough ([ucs_search_terminates]). *)

From Stdlib Require Import PrimFloat.
From Stdlib Require Import QArith Qcanon Qround Lqa.
From Stdlib Require OrderedTypeEx.
From stdpp Require Import gmap strings list fin_maps numbers.

Local Open Scope Qc_scope.

(** ** Numbers *)

(** [x <= y] and [x > y] on Python numbers, as booleans. *)
Definition Qc_leb (x y : Qc) : bool :=
  match x ?= y with Gt => false | _ => true end.

Definition Qc_gtb (x y : Qc) : bool :=
  match x ?= y with Gt => true | _ => false end.

Definition ten : Qc := Q2Qc (10 # 1).

(** ** Data model *)

(** One adjacency record: the 6-tuple
    [(neighbor, total_cost, distance_km, traffic_factor, toll_php, highway_name)]. *)
Record edge := Edge {
  e_to : string;
  e_cost : Qc;
  e_distance : Qc;
  e_traffic : Qc;
  e_toll : Qc;
  e_highway : string
}.

(** One waypoint of [path_info]: the 5-tuple
    [(location, cumulative_cost, cumulative_distance, cumulative_toll, highway_used)]. *)
Record waypoint := Waypoint {
  w_loc : string;
  w_cost : Qc;
  w_distance : Qc;
  w_toll : Qc;
  w_highway : string
}.

(** The object state set up by [__init__]. *)
Record navigator := Navigator {
  graph : gmap string (list edge);
  locations : gmap string string;
  start : option string;
  goal : option string
}.

Definition init : navigator :=
  {| graph := ∅; locations := ∅; start := None; goal := None |}.

(** ** Graph store *)

(** [if k not in self.graph: self.graph[k] = []] *)
Definition ensure_entry (k : string) (g : gmap string (list edge))
  : gmap string (list edge) :=
  match g !! k with
  | Some _ => g
  | None => <[k := []]> g
  end.

Definition add_location (location_id name : string) (nav : navigator) : navigator :=
  {| graph := ensure_entry location_id (graph nav);
     locations := <[location_id := name]> (locations nav);
     start := start nav;
     goal := goal nav |}.

(** [distance_km * traffic_factor + (toll_php / 10.0)] *)
Definition highway_cost (distance_km traffic_factor toll_php : Qc) : Qc :=
  distance_km * traffic_factor + toll_php / ten.

(** [self.graph[k].append(r)] on an existing key. *)
Definition append_record (k : string) (r : edge) (g : gmap string (list edge))
  : gmap string (list edge) :=
  alter (λ l, l ++ [r]) k g.

Definition add_highway (from_loc to_loc : string)
    (distance_km traffic_factor toll_php : Qc) (highway_name : string)
    (nav : navigator) : navigator :=
  let total_cost := highway_cost distance_km traffic_factor toll_php in
  let g1 := ensure_entry from_loc (graph nav) in
  let g2 := ensure_entry to_loc g1 in
  let g3 := append_record from_loc
              (Edge to_loc total_cost distance_km traffic_factor toll_php highway_name) g2 in
  let g4 := append_record to_loc
              (Edge from_loc total_cost distance_km traffic_factor toll_php highway_name) g3 in
  {| graph := g4; locations := locations nav; start := start nav; goal := goal nav |}.

(** A caller builds a network by a sequence of calls of the two methods. *)
Inductive call :=
  | AddLocation (location_id name : string)
  | AddHighway (from_loc to_loc : string)
      (distance_km traffic_factor toll_php : Qc) (highway_name : string).

Definition apply_call (nav : navigator) (c : call) : navigator :=
  match c with
  | AddLocation location_id name => add_location location_id name nav
  | AddHighway from_loc to_loc d tf toll label =>
      add_highway from_loc to_loc d tf toll label nav
  end.

Definition apply_calls (cs : list call) (nav : navigator) : navigator :=
  fold_left apply_call cs nav.

(** ** The frontier

    [priority_queue] holds tuples [(cost, location, path_info)] and is ordered
    by Python's tuple comparison: lexicographic, numbers by value, strings by
    code point, lists lexicographically with a proper prefix first. *)

Definition lex (c1 c2 : comparison) : comparison :=
  match c1 with Eq => c2 | _ => c1 end.

Definition waypoint_compare (a b : waypoint) : comparison :=
  lex (String.compare (w_loc a) (w_loc b))
 (lex (w_cost a ?= w_cost b)
 (lex (w_distance a ?= w_distance b)
 (lex (w_toll a ?= w_toll b)
      (String.compare (w_highway a) (w_highway b))))).

Fixpoint path_compare (p q : list waypoint) : comparison :=
  match p, q with
  | [], [] => Eq
  | [], _ :: _ => Lt
  | _ :: _, [] => Gt
  | a :: p', b :: q' => lex (waypoint_compare a b) (path_compare p' q')
  end.

Definition entry : Type := Qc * string * list waypoint.

Definition entry_cost (x : entry) : Qc := x.1.1.
Definition entry_loc (x : entry) : string := x.1.2.
Definition entry_path (x : entry) : list waypoint := x.2.

Definition entry_compare (x y : entry) : comparison :=
  lex (entry_cost x ?= entry_cost y)
 (lex (String.compare (entry_loc x) (entry_loc y))
      (path_compare (entry_path x) (entry_path y))).

Definition entry_ltb (x y : entry) : bool :=
  match entry_compare x y with Lt => true | _ => false end.

(** What makes a three-way comparison a total order up to its [Eq]. *)
Class Comparison {A : Type} (cmp : A → A → comparison) : Prop := {
  cmp_refl x : cmp x x = Eq;
  cmp_antisym x y : cmp y x = CompOpp (cmp x y);
  cmp_trans x y z : cmp x y = Lt → cmp y z = Lt → cmp x z = Lt;
  cmp_eq_l x y z : cmp x y = Eq → cmp x z = cmp y z
}.

(** [heapq] is used through [heappush] and [heappop] only, so the heap is
    modelled by its contents: [heappush] adds an entry, [heappop] removes the
    least entry for the tuple order and returns it.  The order being total
    ([heappop_unique] below), that entry is the same for every layout of the
    heap. *)
Definition heappush (pq : list entry) (x : entry) : list entry := pq ++ [x].

Fixpoint heappop (pq : list entry) : option (entry * list entry) :=
  match pq with
  | [] => None
  | x :: rest =>
      match heappop rest with
      | None => Some (x, [])
      | Some (m, rest') =>
          if entry_ltb m x then Some (m, x :: rest') else Some (x, rest)
      end
  end.

(** ** Uniform cost search *)

Inductive outcome :=
  | Found (path_info : list waypoint) (total_cost total_distance total_toll : Qc)
      (* line 140: [return path_info, current_cost, total_distance, total_toll] *)
  | NoRoute
      (* lines 176-179: the frontier emptied *)
  | UnknownLocation
      (* lines 75-77: start or goal is not a key of [self.graph] *)
  | RaisedIndexError.
      (* [path_info[-1]] on an empty list *)

(** The diagnostics printed by the two failure branches. *)
Inductive diagnostic :=
  | MsgLocationNotFound   (* "Error: Start or Goal location not found ..." *)
  | MsgNoRoute.           (* "No highway route found from ... to ...!" *)

Definition printed (o : outcome) : option diagnostic :=
  match o with
  | UnknownLocation => Some MsgLocationNotFound
  | NoRoute => Some MsgNoRoute
  | _ => None
  end.

(** The value handed back to the caller: a 4-tuple whose components are
    [None] in both failure branches; nothing is returned when an exception
    propagates. *)
Definition pytuple : Type :=
  option (list waypoint) * option Qc * option Qc * option Qc.

Definition return_value (o : outcome) : option pytuple :=
  match o with
  | Found p c d t => Some (Some p, Some c, Some d, Some t)
  | NoRoute => Some (None, None, None, None)
  | UnknownLocation => Some (None, None, None, None)
  | RaisedIndexError => None
  end.

(** [highway or "Local Road"] *)
Definition highway_or_local (highway : string) : string :=
  if decide (highway = ""%string) then "Local Road"%string else highway.

(** [path_info[-1][2] if path_info else 0], and the same for index 3. *)
Definition prev_distance (path_info : list waypoint) : Qc :=
  match list.last path_info with Some w => w_distance w | None => 0 end.

Definition prev_toll (path_info : list waypoint) : Qc :=
  match list.last path_info with Some w => w_toll w | None => 0 end.

(** [current_location in visited and visited[current_location] <= current_cost] *)
Definition already_settled (visited : gmap string Qc) (loc : string) (cost : Qc) : bool :=
  match visited !! loc with
  | Some v => Qc_leb v cost
  | None => false
  end.

(** [neighbor not in visited or visited[neighbor] > new_cost] *)
Definition worth_pushing (visited : gmap string Qc) (neighbor : string) (new_cost : Qc) : bool :=
  match visited !! neighbor with
  | Some v => Qc_gtb v new_cost
  | None => true
  end.

(** One turn of the [for] loop over the neighbours (lines 150-167). *)
Definition relax (visited : gmap string Qc) (current_cost : Qc)
    (path_info : list waypoint) (pq : list entry) (e : edge) : list entry :=
  let new_cost := current_cost + e_cost e in
  if worth_pushing visited (e_to e) new_cost then
    let new_path_info :=
      path_info ++ [Waypoint (e_to e) new_cost
                      (prev_distance path_info + e_distance e)
                      (prev_toll path_info + e_toll e)
                      (highway_or_local (e_highway e))] in
    heappush pq (new_cost, e_to e, new_path_info)
  else pq.

Definition expand (visited : gmap string Qc) (current_cost : Qc)
    (path_info : list waypoint) (neighbors : list edge) (pq : list entry)
  : list entry :=
  fold_left (relax visited current_cost path_info) neighbors pq.

(** [self.graph[current_location]] under the guard of line 143. *)
Definition neighbors_of (g : gmap string (list edge)) (loc : string) : list edge :=
  match g !! loc with Some l => l | None => [] end.

(** The [while priority_queue:] loop (lines 95-179). *)
Fixpoint ucs_loop (fuel : nat) (g : gmap string (list edge)) (goal_loc : string)
    (priority_queue : list entry) (visited : gmap string Qc) : option outcome :=
  match fuel with
  | O => None
  | S fuel' =>
      match heappop priority_queue with
      | None => Some NoRoute
      | Some ((current_cost, current_location, path_info), pq') =>
          if already_settled visited current_location current_cost then
            ucs_loop fuel' g goal_loc pq' visited
          else
            let visited' := <[current_location := current_cost]> visited in
            if decide (current_location = goal_loc) then
              match list.last path_info with
              | Some final_info =>
                  Some (Found path_info current_cost
                          (w_distance final_info) (w_toll final_info))
              | None => Some RaisedIndexError
              end
            else
              ucs_loop fuel' g goal_loc
                (expand visited' current_cost path_info
                   (neighbors_of g current_location) pq')
                visited'
      end
  end.

Definition start_waypoint (start_loc : string) : waypoint :=
  Waypoint start_loc 0 0 0 "Starting Point"%string.

Definition ucs_search (fuel : nat) (nav : navigator) (start_loc goal_loc : string)
  : option outcome :=
  match graph nav !! start_loc, graph nav !! goal_loc with
  | Some _, Some _ =>
      ucs_loop fuel (graph nav) goal_loc
        [(0, start_loc, [start_waypoint start_loc])] ∅
  | _, _ => Some UnknownLocation
  end.

(** The attributes written by lines 72-73. *)
Definition ucs_search_state (nav : navigator) (start_loc goal_loc : string) : navigator :=
  {| graph := graph nav; locations := locations nav;
     start := Some start_loc; goal := Some goal_loc |}.

(** ** Trip metrics (lines 219-227 of [analyze_algorithm]) *)

Record trip_metrics := TripMetrics {
  estimated_hours : Qc;
  fuel_cost : Qc;
  trip_cost : Qc
}.

Definition avg_speed : Qc := Q2Qc (60 # 1).
Definition fuel_rate : Qc := Q2Qc (5 # 2).

(** The branch guarded by [if path_info and total_cost is not None]. *)
Definition analyze_algorithm (r : pytuple) : option trip_metrics :=
  match r with
  | (Some (_ :: _), Some _, Some total_distance, Some total_toll) =>
      let hours := total_distance / avg_speed in
      let fuel := total_distance * fuel_rate in
      Some (TripMetrics hours fuel (total_toll + fuel))
  | _ => None
  end.

(** ** Paths of the graph and what a ledger records

    A path is the list of adjacency records it follows from its first
    location; sums run over those records. *)

Definition total (f : edge → Qc) (es : list edge) : Qc :=
  fold_left (λ acc e, acc + f e) es 0.

Definition path_cost (es : list edge) : Qc := total e_cost es.

Inductive walk (g : gmap string (list edge)) (s : string)
  : list edge → string → Prop :=
  | walk_nil : walk g s [] s
  | walk_snoc es y e :
      walk g s es y → e ∈ neighbors_of g y → walk g s (es ++ [e]) (e_to e).

Definition simple_path (g : gmap string (list edge)) (s t : string)
    (es : list edge) : Prop :=
  walk g s es t ∧ NoDup (s :: (e_to <$> es)).

Definition nonneg_costs (g : gmap string (list edge)) : Prop :=
  ∀ k e, e ∈ neighbors_of g k → 0 ≤ e_cost e.

(** [c] is the least cost of a simple path from [s] to [t]. *)
Definition min_path_cost (g : gmap string (list edge)) (s t : string) (c : Qc) : Prop :=
  (∃ es, simple_path g s t es ∧ path_cost es = c) ∧
  (∀ es, simple_path g s t es → c ≤ path_cost es).

(** The waypoints written while following [es] with running totals [c], [d], [t]. *)
Fixpoint ledger_from (c d t : Qc) (es : list edge) : list waypoint :=
  match es with
  | [] => []
  | e :: es' =>
      let c' := c + e_cost e in
      let d' := d + e_distance e in
      let t' := t + e_toll e in
      Waypoint (e_to e) c' d' t' (highway_or_local (e_highway e))
        :: ledger_from c' d' t' es'
  end.

Definition ledger_of (s : string) (es : list edge) : list waypoint :=
  start_waypoint s :: ledger_from 0 0 0 es.

(** The waypoint a ledger ends with after following [es] from [s]. *)
Definition waypoint_after (s : string) (es : list edge) : waypoint :=
  match list.last es with
  | None => start_waypoint s
  | Some e =>
      Waypoint (e_to e) (total e_cost es) (total e_distance es) (total e_toll es)
        (highway_or_local (e_highway e))
  end.

(** Waypoint [b] comes after waypoint [a] through an adjacency record of
    [a]'s location. *)
Definition follows (g : gmap string (list edge)) (a b : waypoint) : Prop :=
  ∃ e, e ∈ neighbors_of g (w_loc a) ∧
       w_loc b = e_to e ∧
       w_cost b = w_cost a + e_cost e ∧
       w_distance b = w_distance a + e_distance e ∧
       w_toll b = w_toll a + e_toll e ∧
       w_highway b = highway_or_local (e_highway e).

(** ** Loop invariants *)

(** A frontier entry records a path of the graph from the start. *)
Definition entry_ok (g : gmap string (list edge)) (s : string) (x : entry) : Prop :=
  ∃ es, walk g s es (entry_loc x) ∧
        entry_path x = ledger_of s es ∧
        entry_cost x = path_cost es.

Definition frontier_ok (g : gmap string (list edge)) (s : string)
    (pq : list entry) (visited : gmap string Qc) : Prop :=
  Forall (entry_ok g s) pq.

(** Location [n] is settled at a cost of at most [bound], or waits in the
    frontier at such a cost. *)
Definition reached (pq : list entry) (visited : gmap string Qc)
    (n : string) (bound : Qc) : Prop :=
  (∃ v, visited !! n = Some v ∧ v ≤ bound) ∨
  (∃ x, x ∈ pq ∧ entry_loc x = n ∧ entry_cost x ≤ bound).

(** The start is reached at cost 0 and every record leaving a settled
    location has been relaxed. *)
Definition relaxed (g : gmap string (list edge)) (s : string)
    (pq : list entry) (visited : gmap string Qc) : Prop :=
  reached pq visited s 0 ∧
  ∀ y v e, visited !! y = Some v → e ∈ neighbors_of g y →
           reached pq visited (e_to e) (v + e_cost e).

(** The ledger of an entry visits no location twice and all its waypoints but
    the last are settled at no more than the entry's cost. *)
Definition entry_simple (visited : gmap string Qc) (x : entry) : Prop :=
  NoDup (w_loc <$> entry_path x) ∧
  ∀ p w, entry_path x = p ++ [w] →
         Forall (λ w', ∃ v, visited !! w_loc w' = Some v ∧ v ≤ entry_cost x) p.

Definition frontier_simple (g : gmap string (list edge)) (s : string)
    (pq : list entry) (visited : gmap string Qc) : Prop :=
  Forall (entry_ok g s) pq ∧ Forall (entry_simple visited) pq.

(** Every settled cost is at most every cost waiting in the frontier. *)
Definition settled_below (pq : list entry) (visited : gmap string Qc) : Prop :=
  ∀ y v x, visited !! y = Some v → x ∈ pq → v ≤ entry_cost x.

(** The adjacency records of the keys not settled yet: with the length of the
    frontier, what bounds the iterations left when costs are non-negative. *)
Definition unsettled_records (g : gmap string (list edge))
    (visited : gmap string Qc) : nat :=
  sum_list_with
    (λ kl : string * list edge,
       match visited !! kl.1 with Some _ => 0%nat | None => length kl.2 end)
    (map_to_list g).

(** ** Concrete networks *)

(** Nodes A, B, C with highways A-B, B-C and the direct A-C. *)
Definition abc_network : navigator :=
  add_highway "A" "C" (Q2Qc (200 # 1)) 1 0 ""
  (add_highway "B" "C" (Q2Qc (55 # 1)) (Q2Qc (11 # 10)) (Q2Qc (95 # 1)) ""
  (add_highway "A" "B" (Q2Qc (80 # 1)) (Q2Qc (13 # 10)) (Q2Qc (180 # 1)) ""
  (add_location "C" "C" (add_location "B" "B" (add_location "A" "A" init))))).

(** The ledger from A to C through B. *)
Definition abc_ledger : list waypoint :=
  [Waypoint "A" 0 0 0 "Starting Point";
   Waypoint "B" (Q2Qc (122 # 1)) (Q2Qc (80 # 1)) (Q2Qc (180 # 1)) "Local Road";
   Waypoint "C" (Q2Qc (192 # 1)) (Q2Qc (135 # 1)) (Q2Qc (275 # 1)) "Local Road"].

(** The cost formula of [add_highway] in binary64 arithmetic, to check the
    costs of this network against the rounding that the rationals leave out. *)
Definition highway_cost_binary64 (distance_km traffic_factor toll_php : PrimFloat.float)
  : PrimFloat.float :=
  (distance_km * traffic_factor + toll_php / 10)%float.

(** Two registered locations and no highway. *)
Definition islands : navigator :=
  add_location "B" "B" (add_location "A" "A" init).

(** One highway whose distance is negative. *)
Definition downhill : navigator :=
  add_highway "A" "B" (- Q2Qc (5 # 1)) 1 0 "" init.

(** ** The rest of [analyze_algorithm] *)




(** [sum(len(connections) for connections in self.graph.values())] *)
Definition total_records (g : gmap string (list edge)) : nat :=
  sum_list_with (λ kl : string * list edge, length kl.2) (map_to_list g).

(** Lines 232-233. *)
Definition total_locations (nav : navigator) : nat := size (locations nav).

Definition total_highways (nav : navigator) : nat :=
  (total_records (graph nav) / 2)%nat.

Definition is_highway_call (c : call) : bool :=
  match c with AddHighway _ _ _ _ _ _ => true | AddLocation _ _ => false end.

(** [x // 1] and [x % 1] on a number, and [f"{x:.0f}"]: the nearest integer,
    the even one of two that are equally near. *)
Definition floor_div_1 (x : Qc) : Qc := Qc_of_Z (Qfloor x).

Definition mod_1 (x : Qc) : Qc := x - Qc_of_Z (Qfloor x).

Definition format_0f (x : Qc) : Z :=
  let f := Qfloor x in
  match ((x - Qc_of_Z f) ?= Q2Qc (1 # 2))%Qc with
  | Lt => f
  | Gt => (f + 1)%Z
  | Eq => if Z.even f then f else (f + 1)%Z
  end.

(** The hours and minutes printed by line 225. *)
Definition travel_time (total_distance : Qc) : Z * Z :=
  let hours := total_distance / avg_speed in
  (format_0f (floor_div_1 hours), format_0f (mod_1 hours * Q2Qc (60 # 1))).

(** ** [display_network] *)

Inductive status :=
  | NoStatus
  | OnPath
  | Current
  | Visited (cost : Qc).

(** Lines 48-54; a parameter left at its default is [None], and an empty
    list, string or dictionary counts as false like [None]. *)
Definition location_status (visited : option (gmap string Qc))
    (current : option string) (path : option (list waypoint))
    (loc_id : string) : status :=
  let on_path :=
    match path with
    | Some (w :: p) => bool_decide (loc_id ∈ w_loc <$> w :: p)
    | _ => false
    end in
  let is_current :=
    match current with
    | Some c => bool_decide (c ≠ ""%string) && bool_decide (loc_id = c)
    | None => false
    end in
  if on_path then OnPath
  else if is_current then Current
  else match visited with
       | Some v => match v !! loc_id with Some cost => Visited cost | None => NoStatus end
       | None => NoStatus
       end.

(** ** Highways are stored in both directions *)

(** The record of the same highway seen from its other end [a]. *)
Definition mirror (a : string) (e : edge) : edge :=
  Edge a (e_cost e) (e_distance e) (e_traffic e) (e_toll e) (e_highway e).

Definition mirrored (g : gmap string (list edge)) : Prop :=
  ∀ a e, e ∈ neighbors_of g a → mirror a e ∈ neighbors_of g (e_to e).

(** ** [create_philippine_highway_scenarios] and [main] *)

Definition tenths (n : Z) : Qc := Q2Qc (n # 10).

Definition scenario1 : navigator :=
  apply_calls
    [AddLocation "MNL" "Metro Manila";
     AddLocation "PAM" "Pampanga (Angeles/Clark)";
     AddLocation "TAR" "Tarlac City";
     AddLocation "SUB" "Subic Bay";
     AddLocation "PAN" "Pangasinan (Dagupan)";
     AddLocation "LAU" "La Union (San Fernando)";
     AddLocation "BAG" "Baguio City";
     AddHighway "MNL" "PAM" (Qc_of_Z 80) (tenths 13) (Qc_of_Z 180) "NLEX";
     AddHighway "PAM" "TAR" (Qc_of_Z 55) (tenths 11) (Qc_of_Z 95) "SCTEX";
     AddHighway "PAM" "SUB" (Qc_of_Z 45) (tenths 12) (Qc_of_Z 85) "SCTEX";
     AddHighway "TAR" "PAN" (Qc_of_Z 70) (tenths 10) (Qc_of_Z 120) "TPLEX";
     AddHighway "PAN" "LAU" (Qc_of_Z 55) (tenths 11) (Qc_of_Z 95) "TPLEX";
     AddHighway "LAU" "BAG" (Qc_of_Z 45) (tenths 18) (Qc_of_Z 0) "Kennon Road";
     AddHighway "TAR" "BAG" (Qc_of_Z 85) (tenths 15) (Qc_of_Z 0) "Tarlac-Baguio Road";
     AddHighway "MNL" "SUB" (Qc_of_Z 120) (tenths 20) (Qc_of_Z 50) "MacArthur Highway"]
    init.

Definition scenario2 : navigator :=
  apply_calls
    [AddLocation "MNL" "Metro Manila";
     AddLocation "CAV" "Cavite (Bacoor)";
     AddLocation "LGB" "Laguna (Biñan)";
     AddLocation "STO" "Sto. Tomas, Batangas";
     AddLocation "BAT" "Batangas City";
     AddLocation "LOS" "Los Baños, Laguna";
     AddLocation "CAL" "Calamba, Laguna";
     AddHighway "MNL" "LGB" (Qc_of_Z 45) (tenths 14) (Qc_of_Z 140) "SLEX";
     AddHighway "LGB" "CAL" (Qc_of_Z 25) (tenths 12) (Qc_of_Z 60) "SLEX";
     AddHighway "CAL" "STO" (Qc_of_Z 35) (tenths 11) (Qc_of_Z 75) "SLEX";
     AddHighway "STO" "BAT" (Qc_of_Z 45) (tenths 10) (Qc_of_Z 110) "STAR Tollway";
     AddHighway "CAV" "LGB" (Qc_of_Z 30) (tenths 13) (Qc_of_Z 95) "CALAX";
     AddHighway "MNL" "CAV" (Qc_of_Z 35) (tenths 16) (Qc_of_Z 85) "Coastal Road";
     AddHighway "LGB" "LOS" (Qc_of_Z 15) (tenths 11) (Qc_of_Z 0) "Local Road";
     AddHighway "CAL" "LOS" (Qc_of_Z 8) (tenths 10) (Qc_of_Z 0) "Local Road";
     AddHighway "MNL" "CAL" (Qc_of_Z 55) (tenths 18) (Qc_of_Z 0) "National Highway"]
    init.

Definition scenario3 : navigator :=
  apply_calls
    [AddLocation "MNL" "Metro Manila";
     AddLocation "QC" "Quezon City";
     AddLocation "MKT" "Makati CBD";
     AddLocation "BGC" "Bonifacio Global City";
     AddLocation "NAIA" "NAIA Airport Area";
     AddLocation "PAM" "Pampanga (Clark)";
     AddLocation "CAV" "Cavite";
     AddLocation "LGB" "Laguna (Biñan)";
     AddLocation "BAT" "Batangas City";
     AddLocation "SUB" "Subic Bay";
     AddHighway "MNL" "QC" (Qc_of_Z 20) (tenths 25) (Qc_of_Z 45) "EDSA/C5";
     AddHighway "MNL" "MKT" (Qc_of_Z 15) (tenths 28) (Qc_of_Z 55) "Skyway";
     AddHighway "MKT" "BGC" (Qc_of_Z 8) (tenths 20) (Qc_of_Z 35) "Skyway";
     AddHighway "MNL" "NAIA" (Qc_of_Z 12) (tenths 22) (Qc_of_Z 40) "NAIA Expressway";
     AddHighway "BGC" "NAIA" (Qc_of_Z 10) (tenths 18) (Qc_of_Z 30) "Skyway";
     AddHighway "MNL" "PAM" (Qc_of_Z 80) (tenths 13) (Qc_of_Z 180) "NLEX";
     AddHighway "MNL" "CAV" (Qc_of_Z 35) (tenths 16) (Qc_of_Z 85) "Coastal Road";
     AddHighway "MNL" "LGB" (Qc_of_Z 45) (tenths 14) (Qc_of_Z 140) "SLEX";
     AddHighway "PAM" "SUB" (Qc_of_Z 45) (tenths 12) (Qc_of_Z 85) "SCTEX";
     AddHighway "LGB" "BAT" (Qc_of_Z 80) (tenths 11) (Qc_of_Z 185) "SLEX + STAR";
     AddHighway "CAV" "LGB" (Qc_of_Z 30) (tenths 13) (Qc_of_Z 95) "CALAX"]
    init.

(** The dictionary of scenarios, in the order of its insertions. *)
Definition create_philippine_highway_scenarios : list (string * navigator) :=
  [("Northern Luzon Network"%string, scenario1);
   ("Southern Luzon Network"%string, scenario2);
   ("Complete Luzon Network"%string, scenario3)].

(** [l[i]] on a Python list: a negative index counts from the end, an index
    out of range raises [IndexError] ([None]). *)
Definition py_index {A} (l : list A) (i : Z) : option A :=
  let n := Z.of_nat (length l) in
  if decide (0 ≤ i)%Z then l !! Z.to_nat i
  else if decide (- n ≤ i)%Z then l !! Z.to_nat (n + i)
  else None.

(** [d[k]] on a dictionary kept as the list of its items. *)
Fixpoint dict_get {A} (d : list (string * A)) (k : string) : option A :=
  match d with
  | [] => None
  | (k', v) :: d' => if decide (k' = k) then Some v else dict_get d' k
  end.

(** Lines 377-379, from the integer read by [int(input(...))]. *)
Definition select_scenario (n : Z) : option navigator :=
  let scenarios := create_philippine_highway_scenarios in
  let choice := (n - 1)%Z in
  match py_index (scenarios.*1) choice with
  | Some scenario_name => dict_get scenarios scenario_name
  | None => None
  end.

      (* lines 416-421 *)


(** The identifiers [main] lists (line 386), and whether a search between
    every two of them finds a route. *)
Definition registered (nav : navigator) : list string :=
  (map_to_list (locations nav)).*1.

Definition is_found (o : option outcome) : bool :=
  match o with Some (Found _ _ _ _) => true | _ => false end.

Definition all_routes_found (fuel : nat) (nav : navigator) : bool :=
  forallb (λ s, forallb (λ t, is_found (ucs_search fuel nav s t)) (registered nav))
    (registered nav).



(** * Properties *)

(** ** Graph store *)

Section GraphStore.
Implicit Types (g : gmap string (list edge)) (k : string) (r : edge).

Lemma ensure_entry_lookup g k k' :
  ensure_entry k g !! k' =
    if decide (k = k') then Some (neighbors_of g k) else g !! k'.
Proof.
  unfold ensure_entry, neighbors_of.
  destruct (g !! k) eqn:Hk; case_decide; simplify_map_eq; done.
Qed.

Lemma ensure_entry_present g k : is_Some (g !! k) → ensure_entry k g = g.
Proof. intros [l Hl]. unfold ensure_entry. by rewrite Hl. Qed.

Lemma ensure_entry_neighbors g k k' :
  neighbors_of (ensure_entry k g) k' = neighbors_of g k'.
Proof.
  unfold neighbors_of at 1. rewrite ensure_entry_lookup.
  case_decide; by subst.
Qed.

Lemma append_record_lookup g k r k' :
  append_record k r g !! k' =
    if decide (k = k') then (λ l, l ++ [r]) <$> g !! k' else g !! k'.
Proof.
  unfold append_record. case_decide.
  - subst. by rewrite lookup_alter_eq.
  - by rewrite lookup_alter_ne.
Qed.
End GraphStore.

(** The adjacency list of every key after [add_highway]: the old list (empty
    for a key that is created) followed by one record per endpoint role the
    key plays. *)
Lemma add_highway_lookup from_loc to_loc d tf toll label nav k :
  graph (add_highway from_loc to_loc d tf toll label nav) !! k =
    if decide (k = from_loc ∨ k = to_loc) then
      Some (neighbors_of (graph nav) k
            ++ (if decide (k = from_loc)
                then [Edge to_loc (highway_cost d tf toll) d tf toll label] else [])
            ++ (if decide (k = to_loc)
                then [Edge from_loc (highway_cost d tf toll) d tf toll label] else []))
    else graph nav !! k.
Proof.
  unfold add_highway; simpl.
  rewrite !append_record_lookup, !ensure_entry_lookup.
  destruct (decide (k = from_loc)) as [Hf|Hf], (decide (k = to_loc)) as [Ht|Ht];
    subst; repeat (case_decide; try tauto; try congruence); simpl;
    rewrite ?ensure_entry_neighbors, <- ?app_assoc; done.
Qed.

Lemma add_highway_locations from_loc to_loc d tf toll label nav :
  locations (add_highway from_loc to_loc d tf toll label nav) = locations nav.
Proof. done. Qed.

(** A highway from a location to itself puts both records on the one list. *)
Lemma add_highway_self_loop loc d tf toll label nav :
  let r := Edge loc (highway_cost d tf toll) d tf toll label in
  graph (add_highway loc loc d tf toll label nav) !! loc =
    Some (neighbors_of (graph nav) loc ++ [r; r]).
Proof.
  intros r. rewrite add_highway_lookup.
  rewrite decide_True by auto. by rewrite !decide_True by done.
Qed.

Lemma add_location_graph_present location_id name nav :
  is_Some (graph nav !! location_id) →
  graph (add_location location_id name nav) = graph nav.
Proof. intros. simpl. by apply ensure_entry_present. Qed.

Lemma add_location_lookup_graph location_id name nav :
  graph (add_location location_id name nav) !! location_id =
    Some (neighbors_of (graph nav) location_id).
Proof. simpl. rewrite ensure_entry_lookup. by rewrite decide_True. Qed.

(** No call removes a display name. *)
Lemma apply_calls_keeps_name cs nav k :
  is_Some (locations nav !! k) → is_Some (locations (apply_calls cs nav) !! k).
Proof.
  unfold apply_calls. revert nav.
  induction cs as [|c cs IH]; intros nav Hk; [done|]. simpl. apply IH.
  destruct c as [location_id name|from_loc to_loc d tf toll label]; simpl; [|done].
  rewrite lookup_insert. case_decide; [eauto|done].
Qed.

(** No call removes a key of the graph. *)
Lemma apply_calls_keeps_key cs nav k :
  is_Some (graph nav !! k) → is_Some (graph (apply_calls cs nav) !! k).
Proof.
  unfold apply_calls. revert nav.
  induction cs as [|c cs IH]; intros nav Hk; [done|]. simpl. apply IH.
  destruct c as [location_id name|from_loc to_loc d tf toll label]; simpl.
  - rewrite ensure_entry_lookup. case_decide; [eauto|done].
  - change (is_Some (graph (add_highway from_loc to_loc d tf toll label nav) !! k)).
    rewrite add_highway_lookup. case_decide; [eauto|done].
Qed.

(** ** Numbers *)

Lemma Qc_leb_le x y : Qc_leb x y = true ↔ x ≤ y.
Proof.
  unfold Qc_leb. rewrite Qcle_alt.
  destruct (x ?= y); split; congruence.
Qed.

Lemma Qc_gtb_gt x y : Qc_gtb x y = true ↔ y < x.
Proof.
  unfold Qc_gtb. rewrite Qclt_nge, Qcle_alt.
  destruct (x ?= y); split; try congruence; intros H; by destruct H.
Qed.

Lemma Qc_gtb_le x y : Qc_gtb x y = false ↔ x ≤ y.
Proof.
  unfold Qc_gtb. rewrite Qcle_alt.
  destruct (x ?= y); split; congruence.
Qed.

Lemma Qcle_plus_nonneg (x e : Qc) : 0 ≤ e → x ≤ x + e.
Proof.
  intros He. rewrite <- (Qcplus_0_r x) at 1. by apply Qcplus_le_mono_l.
Qed.

(** ** The frontier *)

Lemma entry_ltb_cost x y : entry_ltb x y = true → entry_cost x ≤ entry_cost y.
Proof.
  unfold entry_ltb, entry_compare, lex.
  destruct (entry_cost x ?= entry_cost y) eqn:Hc; try done; intros _.
  - apply Qceq_alt in Hc. rewrite Hc. apply Qcle_refl.
  - apply Qclt_le_weak. by apply Qclt_alt.
Qed.

Lemma entry_ltb_false_cost x y : entry_ltb x y = false → entry_cost y ≤ entry_cost x.
Proof.
  unfold entry_ltb, entry_compare, lex.
  destruct (entry_cost x ?= entry_cost y) eqn:Hc; try done; intros _.
  - apply Qceq_alt in Hc. rewrite Hc. apply Qcle_refl.
  - apply Qclt_le_weak. by apply Qcgt_alt.
Qed.

Lemma heappop_None pq : heappop pq = None → pq = [].
Proof.
  destruct pq as [|x rest]; [done|]. simpl.
  destruct (heappop rest) as [[m rest']|]; [|done].
  by destruct (entry_ltb m x).
Qed.

(** [heappop] takes one entry out and leaves the others. *)
Lemma heappop_perm pq x pq' : heappop pq = Some (x, pq') → pq ≡ₚ x :: pq'.
Proof.
  revert x pq'. induction pq as [|y rest IH]; intros x pq'; [done|]. simpl.
  destruct (heappop rest) as [[m rest']|] eqn:Hrest.
  - destruct (entry_ltb m y); intros [= <- <-]; [|done].
    rewrite (IH _ _ eq_refl). apply Permutation_swap.
  - intros [= <- <-]. by rewrite (heappop_None _ Hrest).
Qed.

(** The entry it returns has the least cost of the frontier. *)
Lemma heappop_min pq x pq' :
  heappop pq = Some (x, pq') → ∀ y, y ∈ pq → entry_cost x ≤ entry_cost y.
Proof.
  revert x pq'. induction pq as [|z rest IH]; intros x pq'; [done|]. simpl.
  destruct (heappop rest) as [[m rest']|] eqn:Hrest.
  - specialize (IH _ _ eq_refl).
    destruct (entry_ltb m z) eqn:Hlt; intros [= <- <-] y Hy;
      apply elem_of_cons in Hy as [->|Hy];
      auto using entry_ltb_cost, Qcle_refl.
    trans (entry_cost m); auto using entry_ltb_false_cost.
  - intros [= <- <-] y Hy. apply heappop_None in Hrest as ->.
    apply list_elem_of_singleton in Hy as ->. apply Qcle_refl.
Qed.

Lemma heappop_elem_of pq x pq' : heappop pq = Some (x, pq') → x ∈ pq.
Proof. intros H%heappop_perm. rewrite H. apply list_elem_of_here. Qed.

Lemma heappop_rest pq x pq' y : heappop pq = Some (x, pq') → y ∈ pq' → y ∈ pq.
Proof. intros H%heappop_perm Hy. rewrite H. by apply list_elem_of_further. Qed.

(** *** The tuple order is total, so the least entry is unique *)

Lemma cmp_eq_r {A} (cmp : A → A → comparison) `{!Comparison cmp} x y z :
  cmp y z = Eq → cmp x y = cmp x z.
Proof.
  intros H. rewrite (cmp_antisym y x), (cmp_antisym z x). f_equal.
  by apply cmp_eq_l.
Qed.

Global Instance Qccompare_comparison : Comparison Qccompare.
Proof.
  split.
  - intros x. by apply Qceq_alt.
  - intros x y. unfold Qccompare. by rewrite <- Qcompare_antisym.
  - intros x y z. rewrite <- !Qclt_alt. apply Qclt_trans.
  - intros x y z Hxy. apply Qceq_alt in Hxy. by subst.
Qed.

Global Instance string_compare_comparison : Comparison String.compare.
Proof.
  split.
  - intros x. by apply OrderedTypeEx.String_as_OT.cmp_eq.
  - intros x y. apply String.compare_antisym.
  - intros x y z. change String.compare with OrderedTypeEx.String_as_OT.cmp.
    rewrite !OrderedTypeEx.String_as_OT.cmp_lt.
    apply OrderedTypeEx.String_as_OT.lt_trans.
  - intros x y z Hxy. apply String.compare_eq_iff in Hxy. by subst.
Qed.

Lemma lex_comparison {A} (c1 c2 : A → A → comparison) :
  Comparison c1 → Comparison c2 → Comparison (λ x y, lex (c1 x y) (c2 x y)).
Proof.
  intros H1 H2. split.
  - intros x. by rewrite !cmp_refl.
  - intros x y. rewrite (cmp_antisym (cmp:=c1) x y), (cmp_antisym (cmp:=c2) x y).
    by destruct (c1 x y), (c2 x y).
  - intros x y z. unfold lex.
    destruct (c1 x y) eqn:Hxy, (c1 y z) eqn:Hyz; try done.
    + rewrite (cmp_eq_l (cmp:=c1) x y z Hxy), Hyz. apply cmp_trans.
    + by rewrite (cmp_eq_l (cmp:=c1) x y z Hxy), Hyz.
    + by rewrite <- (cmp_eq_r c1 x y z Hyz), Hxy.
    + by rewrite (cmp_trans (cmp:=c1) x y z Hxy Hyz).
  - intros x y z. unfold lex. destruct (c1 x y) eqn:Hxy; [|done..].
    intros Hxy2. by rewrite (cmp_eq_l (cmp:=c1) x y z Hxy), (cmp_eq_l (cmp:=c2) x y z Hxy2).
Qed.

Lemma proj_comparison {A B} (f : A → B) (c : B → B → comparison) :
  Comparison c → Comparison (λ x y, c (f x) (f y)).
Proof.
  intros H. split; intros; eauto using cmp_refl, cmp_antisym, cmp_trans, cmp_eq_l.
Qed.

Global Instance waypoint_compare_comparison : Comparison waypoint_compare.
Proof.
  unfold waypoint_compare.
  repeat (apply lex_comparison); apply proj_comparison; apply _.
Qed.

Global Instance path_compare_comparison : Comparison path_compare.
Proof.
  split.
  - induction x as [|a p IH]; simpl; [done|]. by rewrite cmp_refl.
  - induction x as [|a p IH]; intros [|b q]; simpl; try done.
    rewrite (cmp_antisym (cmp:=waypoint_compare) a b), IH.
    by destruct (waypoint_compare a b), (path_compare p q).
  - induction x as [|a p IH]; intros [|b q] [|c r]; simpl; try done.
    unfold lex.
    destruct (waypoint_compare a b) eqn:Hab, (waypoint_compare b c) eqn:Hbc; try done.
    + rewrite (cmp_eq_l (cmp:=waypoint_compare) a b c Hab), Hbc. apply IH.
    + by rewrite (cmp_eq_l (cmp:=waypoint_compare) a b c Hab), Hbc.
    + by rewrite <- (cmp_eq_r waypoint_compare a b c Hbc), Hab.
    + by rewrite (cmp_trans (cmp:=waypoint_compare) a b c Hab Hbc).
  - induction x as [|a p IH]; intros [|b q] [|c r]; simpl; try done.
    unfold lex. destruct (waypoint_compare a b) eqn:Hab; [|done..].
    intros Hpq. by rewrite (cmp_eq_l (cmp:=waypoint_compare) a b c Hab), (IH q r Hpq).
Qed.

Global Instance entry_compare_comparison : Comparison entry_compare.
Proof.
  unfold entry_compare.
  repeat (apply lex_comparison); apply proj_comparison; apply _.
Qed.

Lemma waypoint_compare_eq a b : waypoint_compare a b = Eq → a = b.
Proof.
  destruct a as [l1 c1 d1 t1 h1], b as [l2 c2 d2 t2 h2].
  unfold waypoint_compare, lex; simpl.
  destruct (String.compare l1 l2) eqn:Hl; try done.
  destruct (c1 ?= c2) eqn:Hc; try done.
  destruct (d1 ?= d2) eqn:Hd; try done.
  destruct (t1 ?= t2) eqn:Ht; try done.
  intros Hh.
  apply String.compare_eq_iff in Hl, Hh. apply Qceq_alt in Hc, Hd, Ht.
  by subst.
Qed.

Lemma path_compare_eq p q : path_compare p q = Eq → p = q.
Proof.
  revert q. induction p as [|a p IH]; intros [|b q]; simpl; try done.
  unfold lex. destruct (waypoint_compare a b) eqn:Hab; try done.
  intros Hpq. apply waypoint_compare_eq in Hab. apply IH in Hpq. by subst.
Qed.

Lemma entry_compare_eq x y : entry_compare x y = Eq → x = y.
Proof.
  destruct x as [[c1 n1] p1], y as [[c2 n2] p2].
  unfold entry_compare, entry_cost, entry_loc, entry_path, lex; simpl.
  destruct (c1 ?= c2) eqn:Hc; try done.
  destruct (String.compare n1 n2) eqn:Hn; try done.
  intros Hp. apply Qceq_alt in Hc. apply String.compare_eq_iff in Hn.
  apply path_compare_eq in Hp. by subst.
Qed.

(** No entry of the frontier is below the one [heappop] returns, and an
    entry with that property is the one returned: the result of [heappop]
    does not depend on how [heapq] lays the entries out. *)
Lemma heappop_least pq x pq' :
  heappop pq = Some (x, pq') → ∀ y, y ∈ pq → entry_compare y x ≠ Lt.
Proof.
  revert x pq'. induction pq as [|z rest IH]; intros x pq'; [done|]. simpl.
  destruct (heappop rest) as [[m rest']|] eqn:Hrest.
  - specialize (IH _ _ eq_refl). unfold entry_ltb.
    destruct (entry_compare m z) eqn:Hmz; intros [= <- <-] y Hy;
      apply elem_of_cons in Hy as [->|Hy]; auto.
    + by rewrite cmp_refl.
    + rewrite (cmp_eq_r entry_compare y z m); [auto|].
      by rewrite cmp_antisym, Hmz.
    + by rewrite cmp_antisym, Hmz.
    + by rewrite cmp_refl.
    + intros Hyz. apply (IH y Hy).
      apply (cmp_trans y z m Hyz). by rewrite cmp_antisym, Hmz.
  - intros [= <- <-] y Hy. apply heappop_None in Hrest as ->.
    apply list_elem_of_singleton in Hy as ->. by rewrite cmp_refl.
Qed.

Lemma heappop_unique pq x pq' x' :
  heappop pq = Some (x, pq') →
  x' ∈ pq → (∀ y, y ∈ pq → entry_compare y x' ≠ Lt) → x' = x.
Proof.
  intros Hpop Hin Hleast. apply entry_compare_eq.
  pose proof (heappop_least _ _ _ Hpop x' Hin) as H1.
  pose proof (Hleast x (heappop_elem_of _ _ _ Hpop)) as H2.
  rewrite (cmp_antisym x' x) in H2.
  by destruct (entry_compare x' x).
Qed.

(** The frontier after the [for] loop: the old entries and one entry for each
    neighbour that passed the test of line 154. *)
Lemma elem_of_expand visited c path_info neighbors pq x :
  x ∈ expand visited c path_info neighbors pq ↔
  x ∈ pq ∨
  ∃ e, e ∈ neighbors ∧
       worth_pushing visited (e_to e) (c + e_cost e) = true ∧
       x = (c + e_cost e, e_to e,
            path_info ++ [Waypoint (e_to e) (c + e_cost e)
                            (prev_distance path_info + e_distance e)
                            (prev_toll path_info + e_toll e)
                            (highway_or_local (e_highway e))]).
Proof.
  unfold expand. revert pq.
  induction neighbors as [|e rest IH]; intros pq; simpl.
  - split; [auto|]. intros [?|(e & He & _)]; [done|]. by apply elem_of_nil in He.
  - rewrite IH. unfold relax, heappush.
    destruct (worth_pushing visited (e_to e) (c + e_cost e)) eqn:Hw.
    + rewrite elem_of_app, list_elem_of_singleton. split.
      * intros [[?| ->]|(e' & ? & ? & ?)]; eauto 8 using list_elem_of_here, list_elem_of_further.
      * intros [?|(e' & [->|?]%elem_of_cons & ? & ?)]; eauto 8.
    + split.
      * intros [?|(e' & ? & ? & ?)]; eauto 8 using list_elem_of_further.
      * intros [?|(e' & [->|?]%elem_of_cons & ? & ?)]; eauto 8. congruence.
Qed.

(** ** The loop *)

(** Whatever the loop returns, it returns from a state that an invariant of
    its two continuing branches still describes. *)
Lemma ucs_loop_inv g goal_loc (Inv : list entry → gmap string Qc → Prop) :
  (∀ pq visited c n p pq',
     Inv pq visited → heappop pq = Some ((c, n, p), pq') →
     already_settled visited n c = true → Inv pq' visited) →
  (∀ pq visited c n p pq',
     Inv pq visited → heappop pq = Some ((c, n, p), pq') →
     already_settled visited n c = false → n ≠ goal_loc →
     Inv (expand (<[n := c]> visited) c p (neighbors_of g n) pq')
         (<[n := c]> visited)) →
  ∀ fuel pq visited o,
    Inv pq visited → ucs_loop fuel g goal_loc pq visited = Some o →
    (o = NoRoute ∧ ∃ visited0, Inv [] visited0) ∨
    ∃ pq0 visited0 c p pq',
      Inv pq0 visited0 ∧
      heappop pq0 = Some ((c, goal_loc, p), pq') ∧
      already_settled visited0 goal_loc c = false ∧
      o = match list.last p with
          | Some final_info => Found p c (w_distance final_info) (w_toll final_info)
          | None => RaisedIndexError
          end.
Proof.
  intros Hskip Hstep. induction fuel as [|fuel IH]; intros pq visited o HI; [done|].
  simpl. destruct (heappop pq) as [[[[c n] p] pq']|] eqn:Hpop.
  - destruct (already_settled visited n c) eqn:Hs.
    + apply IH. eauto.
    + case_decide as Hgoal.
      * subst n. intros Ho. right. exists pq, visited, c, p, pq'.
        repeat split; try done.
        destruct (list.last p); congruence.
      * apply IH. eauto.
  - intros [= <-]. left. apply heappop_None in Hpop as ->. eauto.
Qed.

(** ** Ledgers *)

Lemma total_snoc f es e : total f (es ++ [e]) = total f es + f e.
Proof. unfold total. by rewrite fold_left_app. Qed.

Lemma ledger_from_snoc c d t es e :
  ledger_from c d t (es ++ [e]) =
    ledger_from c d t es ++
      [Waypoint (e_to e)
         (fold_left (λ acc e, acc + e_cost e) es c + e_cost e)
         (fold_left (λ acc e, acc + e_distance e) es d + e_distance e)
         (fold_left (λ acc e, acc + e_toll e) es t + e_toll e)
         (highway_or_local (e_highway e))].
Proof.
  revert c d t. induction es as [|e' es IH]; intros c d t; simpl; [done|].
  by rewrite IH.
Qed.

Lemma waypoint_after_snoc s es e :
  waypoint_after s (es ++ [e]) =
    Waypoint (e_to e) (total e_cost es + e_cost e)
      (total e_distance es + e_distance e) (total e_toll es + e_toll e)
      (highway_or_local (e_highway e)).
Proof. unfold waypoint_after. by rewrite last_snoc, !total_snoc. Qed.

Lemma ledger_of_snoc s es e :
  ledger_of s (es ++ [e]) = ledger_of s es ++ [waypoint_after s (es ++ [e])].
Proof.
  unfold ledger_of. by rewrite ledger_from_snoc, waypoint_after_snoc.
Qed.

Lemma length_ledger_of s es : length (ledger_of s es) = S (length es).
Proof.
  induction es as [|e es IH] using rev_ind; [done|].
  rewrite ledger_of_snoc, !length_app, IH. simpl. lia.
Qed.

Lemma last_ledger_of s es : list.last (ledger_of s es) = Some (waypoint_after s es).
Proof.
  destruct es as [|e es _] using rev_ind; [done|].
  by rewrite ledger_of_snoc, last_snoc.
Qed.

(** Waypoint [i] of a ledger holds the totals of the first [i] records. *)
Lemma ledger_of_lookup s es i w :
  ledger_of s es !! i = Some w → w = waypoint_after s (take i es).
Proof.
  revert i w. induction es as [|e es IH] using rev_ind; intros i w.
  - destruct i; [|done]. by intros [= <-].
  - rewrite ledger_of_snoc. intros Hi.
    apply lookup_app_Some in Hi as [Hi|[Hlen Hi]].
    + assert (i ≤ length es)%nat.
      { apply lookup_lt_Some in Hi. rewrite length_ledger_of in Hi. lia. }
      rewrite take_app_le by done. by apply IH.
    + rewrite length_ledger_of in Hlen, Hi.
      apply list_lookup_singleton_Some in Hi as [Hi <-].
      rewrite take_ge; [done|]. rewrite length_app. simpl. lia.
Qed.

Lemma waypoint_after_cost s es : w_cost (waypoint_after s es) = path_cost es.
Proof. unfold waypoint_after. by destruct (list.last es) eqn:H; [|apply last_None in H as ->]. Qed.

Lemma waypoint_after_distance s es :
  w_distance (waypoint_after s es) = total e_distance es.
Proof. unfold waypoint_after. by destruct (list.last es) eqn:H; [|apply last_None in H as ->]. Qed.

Lemma waypoint_after_toll s es : w_toll (waypoint_after s es) = total e_toll es.
Proof. unfold waypoint_after. by destruct (list.last es) eqn:H; [|apply last_None in H as ->]. Qed.

Lemma waypoint_after_loc g s es n : walk g s es n → w_loc (waypoint_after s es) = n.
Proof.
  intros [|es' y e _ _]; [done|]. by rewrite waypoint_after_snoc.
Qed.

Lemma ledger_of_locs s es : w_loc <$> ledger_of s es = s :: (e_to <$> es).
Proof.
  induction es as [|e es IH] using rev_ind; [done|].
  rewrite ledger_of_snoc, !fmap_app, IH, waypoint_after_snoc. done.
Qed.

(** What line 159 appends to the ledger of a path is the ledger of the path
    extended by the record followed. *)
Lemma ledger_of_extend s es e c :
  c = path_cost es →
  ledger_of s es ++
    [Waypoint (e_to e) (c + e_cost e)
       (prev_distance (ledger_of s es) + e_distance e)
       (prev_toll (ledger_of s es) + e_toll e)
       (highway_or_local (e_highway e))]
  = ledger_of s (es ++ [e]).
Proof.
  intros ->. unfold prev_distance, prev_toll.
  rewrite ledger_of_snoc, last_ledger_of, waypoint_after_snoc.
  by rewrite waypoint_after_distance, waypoint_after_toll.
Qed.

(** ** Every frontier entry records a path of the graph *)

Lemma entry_ok_start g s : entry_ok g s (0, s, [start_waypoint s]).
Proof. exists []. split_and!; [constructor|done|done]. Qed.

Lemma entry_ok_extend g s c n p e :
  entry_ok g s (c, n, p) → e ∈ neighbors_of g n →
  entry_ok g s
    (c + e_cost e, e_to e,
     p ++ [Waypoint (e_to e) (c + e_cost e)
             (prev_distance p + e_distance e) (prev_toll p + e_toll e)
             (highway_or_local (e_highway e))]).
Proof.
  intros (es & Hwalk & Hp & Hc) He.
  unfold entry_cost, entry_loc, entry_path in *. simpl in *. subst p.
  exists (es ++ [e]). simpl. split_and!.
  - by econstructor.
  - by apply ledger_of_extend.
  - unfold path_cost in *. rewrite total_snoc. by subst c.
Qed.

Lemma frontier_ok_skip g s pq visited x pq' :
  frontier_ok g s pq visited → heappop pq = Some (x, pq') →
  frontier_ok g s pq' visited.
Proof.
  unfold frontier_ok. rewrite !list.Forall_forall. intros Hok Hpop y Hy.
  apply Hok. eapply heappop_rest; eauto.
Qed.

Lemma frontier_ok_step g s pq visited visited' c n p pq' :
  frontier_ok g s pq visited → heappop pq = Some ((c, n, p), pq') →
  frontier_ok g s (expand visited' c p (neighbors_of g n) pq') visited'.
Proof.
  unfold frontier_ok. rewrite !list.Forall_forall. intros Hok Hpop x.
  rewrite elem_of_expand. intros [Hx|(e & He & _ & ->)].
  - eauto using heappop_rest.
  - apply (entry_ok_extend g s c n p e); [|done].
    apply Hok. by eapply heappop_elem_of.
Qed.

(** ** Relaxation: what the settled costs and the frontier cover *)

Lemma already_settled_true visited n c :
  already_settled visited n c = true → ∃ v, visited !! n = Some v ∧ v ≤ c.
Proof.
  unfold already_settled. destruct (visited !! n) as [v|]; [|done].
  intros H%Qc_leb_le. eauto.
Qed.

Lemma already_settled_false visited n c v :
  already_settled visited n c = false → visited !! n = Some v → c < v.
Proof.
  unfold already_settled. intros H Hv. rewrite Hv in H.
  apply Qclt_nge. intros Hle%Qc_leb_le. congruence.
Qed.

Lemma worth_pushing_false visited n c :
  worth_pushing visited n c = false → ∃ v, visited !! n = Some v ∧ v ≤ c.
Proof.
  unfold worth_pushing. destruct (visited !! n) as [v|]; [|done].
  intros H%Qc_gtb_le. eauto.
Qed.

Lemma worth_pushing_true visited n c v :
  worth_pushing visited n c = true → visited !! n = Some v → c < v.
Proof.
  unfold worth_pushing. intros H Hv. rewrite Hv in H. by apply Qc_gtb_gt.
Qed.

(** Settling [n] at [c] only lowers the cost recorded for [n]. *)
Lemma settle_lookup visited n c m v bound :
  already_settled visited n c = false →
  visited !! m = Some v → v ≤ bound →
  ∃ v', <[n := c]> visited !! m = Some v' ∧ v' ≤ bound.
Proof.
  intros Hs Hm Hv. destruct (decide (n = m)) as [->|Hne].
  - exists c. rewrite lookup_insert_eq. split; [done|].
    apply Qclt_le_weak. eapply Qclt_le_trans; [|done].
    by eapply already_settled_false.
  - exists v. by rewrite lookup_insert_ne.
Qed.

Lemma reached_skip pq visited c n p pq' m bound :
  heappop pq = Some ((c, n, p), pq') → already_settled visited n c = true →
  reached pq visited m bound → reached pq' visited m bound.
Proof.
  intros Hpop Hs [Hv|(x & Hx & Hloc & Hcost)]; [by left|].
  rewrite (heappop_perm _ _ _ Hpop) in Hx.
  apply elem_of_cons in Hx as [->|Hx].
  - left. apply already_settled_true in Hs as (v & Hv & Hle).
    unfold entry_loc, entry_cost in *; simpl in *. subst m.
    exists v. split; [done|]. by trans c.
  - right. eauto.
Qed.

Lemma reached_step g pq visited c n p pq' m bound :
  heappop pq = Some ((c, n, p), pq') → already_settled visited n c = false →
  reached pq visited m bound →
  reached (expand (<[n := c]> visited) c p (neighbors_of g n) pq')
    (<[n := c]> visited) m bound.
Proof.
  intros Hpop Hs [(v & Hv & Hle)|(x & Hx & Hloc & Hcost)].
  - left. by eapply settle_lookup.
  - rewrite (heappop_perm _ _ _ Hpop) in Hx.
    apply elem_of_cons in Hx as [->|Hx].
    + left. unfold entry_loc, entry_cost in *; simpl in *. subst m.
      exists c. by rewrite lookup_insert_eq.
    + right. exists x. rewrite elem_of_expand. auto.
Qed.

Lemma relaxed_start g s : relaxed g s [(0, s, [start_waypoint s])] ∅.
Proof.
  split.
  - right. exists (0, s, [start_waypoint s]).
    split_and!; [apply list_elem_of_here|done|apply Qcle_refl].
  - intros y v e Hy. by rewrite lookup_empty in Hy.
Qed.

Lemma relaxed_skip g s pq visited c n p pq' :
  relaxed g s pq visited → heappop pq = Some ((c, n, p), pq') →
  already_settled visited n c = true → relaxed g s pq' visited.
Proof.
  intros [Hstart Hedges] Hpop Hs. split; eauto using reached_skip.
Qed.

Lemma relaxed_step g s pq visited c n p pq' :
  relaxed g s pq visited → heappop pq = Some ((c, n, p), pq') →
  already_settled visited n c = false →
  relaxed g s (expand (<[n := c]> visited) c p (neighbors_of g n) pq')
    (<[n := c]> visited).
Proof.
  intros [Hstart Hedges] Hpop Hs. split; [by eapply reached_step|].
  intros y v e Hy He. destruct (decide (n = y)) as [->|Hne].
  - rewrite lookup_insert_eq in Hy. injection Hy as <-.
    destruct (worth_pushing (<[y := c]> visited) (e_to e) (c + e_cost e)) eqn:Hw.
    + right. eexists. rewrite elem_of_expand. split_and!.
      * right. exists e. eauto.
      * done.
      * apply Qcle_refl.
    + left. by apply worth_pushing_false.
  - rewrite lookup_insert_ne in Hy by done.
    eapply reached_step; eauto.
Qed.

(** With non-negative costs, every path from the start ends at a location
    settled at no more than the path's cost, or costs at least as much as some
    frontier entry. *)
Lemma relaxed_covers g s pq visited es n :
  nonneg_costs g → relaxed g s pq visited → walk g s es n →
  (∃ v, visited !! n = Some v ∧ v ≤ path_cost es) ∨
  (∃ x, x ∈ pq ∧ entry_cost x ≤ path_cost es).
Proof.
  intros Hnn [Hstart Hedges]. induction 1 as [|es y e Hwalk IH He].
  - destruct Hstart as [?|(x & ? & ? & ?)]; eauto.
  - unfold path_cost in *. rewrite total_snoc.
    pose proof (Hnn _ _ He) as Hpos.
    destruct IH as [(v & Hv & Hle)|(x & Hx & Hle)].
    + destruct (Hedges _ _ _ Hv He) as [(v' & Hv' & Hle')|(x & Hx & _ & Hle')].
      * left. exists v'. split; [done|]. trans (v + e_cost e); [done|].
        by apply Qcplus_le_mono_r.
      * right. exists x. split; [done|]. trans (v + e_cost e); [done|].
        by apply Qcplus_le_mono_r.
    + right. exists x. split; [done|]. trans (total e_cost es); [done|].
      by apply Qcle_plus_nonneg.
Qed.

(** The entry popped for an unsettled location costs no more than any path
    from the start to that location. *)
Lemma popped_is_lower_bound g s pq visited c n p pq' es :
  nonneg_costs g → relaxed g s pq visited →
  heappop pq = Some ((c, n, p), pq') → already_settled visited n c = false →
  walk g s es n → c ≤ path_cost es.
Proof.
  intros Hnn Hrel Hpop Hs Hwalk.
  destruct (relaxed_covers _ _ _ _ _ _ Hnn Hrel Hwalk)
    as [(v & Hv & Hle)|(x & Hx & Hle)].
  - apply Qclt_le_weak. eapply Qclt_le_trans; [|done].
    by eapply already_settled_false.
  - trans (entry_cost x); [|done].
    by apply (heappop_min _ _ _ Hpop).
Qed.

(** ** Ledgers visit no location twice when costs are non-negative *)

Lemma entry_simple_start s : entry_simple ∅ (0, s, [start_waypoint s]).
Proof.
  split; simpl.
  - apply NoDup_singleton.
  - intros p w Hp. destruct p as [|? [|? ?]]; by try constructor.
Qed.

Lemma entry_simple_settle visited n c x :
  already_settled visited n c = false →
  entry_simple visited x → entry_simple (<[n := c]> visited) x.
Proof.
  intros Hs [Hnd Hpre]. split; [done|].
  intros p w Hp. specialize (Hpre p w Hp).
  eapply list.Forall_impl; [done|]. simpl.
  intros w' (v & Hv & Hle). by eapply settle_lookup.
Qed.

(** Every waypoint of the ledger being extended is settled at no more than
    the cost of the new entry. *)
Lemma ledger_settled g s visited c n p e :
  nonneg_costs g → e ∈ neighbors_of g n →
  already_settled visited n c = false →
  entry_ok g s (c, n, p) → entry_simple visited (c, n, p) →
  Forall (λ w', ∃ v, <[n := c]> visited !! w_loc w' = Some v ∧ v ≤ c + e_cost e) p.
Proof.
  intros Hnn He Hs (es & Hwalk & Hp & Hc) [_ Hpre].
  unfold entry_cost, entry_loc, entry_path in *; simpl in *.
  pose proof (Hnn _ _ He) as Hpos.
  pose proof (last_ledger_of s es) as Hlast. rewrite <- Hp in Hlast.
  apply last_Some in Hlast as [q Hq].
  specialize (Hpre q _ Hq). rewrite Hq. apply Forall_app. split.
  - eapply list.Forall_impl; [done|]. simpl. intros w' (v & Hv & Hle).
    eapply settle_lookup; [done..|].
    trans c; [done|]. by apply Qcle_plus_nonneg.
  - apply Forall_singleton. rewrite (waypoint_after_loc _ _ _ _ Hwalk).
    exists c. rewrite lookup_insert_eq. split; [done|].
    by apply Qcle_plus_nonneg.
Qed.

Lemma entry_simple_extend g s visited c n p e :
  nonneg_costs g → e ∈ neighbors_of g n →
  already_settled visited n c = false →
  entry_ok g s (c, n, p) → entry_simple visited (c, n, p) →
  worth_pushing (<[n := c]> visited) (e_to e) (c + e_cost e) = true →
  entry_simple (<[n := c]> visited)
    (c + e_cost e, e_to e,
     p ++ [Waypoint (e_to e) (c + e_cost e)
             (prev_distance p + e_distance e) (prev_toll p + e_toll e)
             (highway_or_local (e_highway e))]).
Proof.
  intros Hnn He Hs Hok Hsimple Hw.
  pose proof (ledger_settled _ _ _ _ _ _ _ Hnn He Hs Hok Hsimple) as Hset.
  destruct Hsimple as [Hnd _].
  unfold entry_simple, entry_cost, entry_path in *; simpl in *. split.
  - rewrite fmap_app. simpl. apply list.NoDup_app. split_and!; [done| |apply NoDup_singleton].
    intros loc Hloc ->%list_elem_of_singleton.
    apply list_elem_of_fmap in Hloc as (w' & Hw' & Hin).
    rewrite list.Forall_forall in Hset.
    destruct (Hset _ Hin) as (v & Hv & Hle).
    rewrite <- Hw' in Hv.
    pose proof (worth_pushing_true _ _ _ _ Hw Hv) as Hlt.
    by apply Qclt_nge in Hlt.
  - intros q w Hq. by apply app_inj_tail in Hq as [<- _].
Qed.

Lemma frontier_simple_start g s : frontier_simple g s [(0, s, [start_waypoint s])] ∅.
Proof.
  split; apply Forall_singleton; [apply entry_ok_start|apply entry_simple_start].
Qed.

Lemma frontier_simple_skip g s pq visited x pq' :
  frontier_simple g s pq visited → heappop pq = Some (x, pq') →
  frontier_simple g s pq' visited.
Proof.
  intros [Hok Hsimple] Hpop.
  split; [by apply (frontier_ok_skip g s pq visited x pq')|].
  revert Hsimple. rewrite !list.Forall_forall. intros Hsimple y Hy.
  apply Hsimple. eapply heappop_rest; eauto.
Qed.

Lemma frontier_simple_step g s pq visited c n p pq' :
  nonneg_costs g →
  frontier_simple g s pq visited → heappop pq = Some ((c, n, p), pq') →
  already_settled visited n c = false →
  frontier_simple g s
    (expand (<[n := c]> visited) c p (neighbors_of g n) pq')
    (<[n := c]> visited).
Proof.
  intros Hnn [Hok Hsimple] Hpop Hs.
  split; [by apply (frontier_ok_step g s pq visited)|].
  pose proof (heappop_elem_of _ _ _ Hpop) as Hin.
  revert Hok Hsimple. unfold frontier_ok. rewrite !list.Forall_forall.
  intros Hok Hsimple x. rewrite elem_of_expand.
  intros [Hx|(e & He & Hw & ->)].
  - apply entry_simple_settle; [done|]. apply Hsimple.
    eapply heappop_rest; eauto.
  - eapply entry_simple_extend; eauto.
Qed.

(** ** Fuel *)

(** More fuel does not change a result. *)
Lemma ucs_loop_fuel_mono g goal_loc fuel fuel' pq visited o :
  (fuel ≤ fuel')%nat →
  ucs_loop fuel g goal_loc pq visited = Some o →
  ucs_loop fuel' g goal_loc pq visited = Some o.
Proof.
  revert fuel' pq visited. induction fuel as [|fuel IH]; intros fuel' pq visited Hle; [done|].
  destruct fuel' as [|fuel']; [lia|]. simpl.
  destruct (heappop pq) as [[[[c n] p] pq']|]; [|done].
  destruct (already_settled visited n c); [apply IH; lia|].
  case_decide; [done|]. apply IH; lia.
Qed.

Lemma ucs_search_fuel_mono fuel fuel' nav s t o :
  (fuel ≤ fuel')%nat →
  ucs_search fuel nav s t = Some o → ucs_search fuel' nav s t = Some o.
Proof.
  unfold ucs_search. intros Hle.
  destruct (graph nav !! s), (graph nav !! t); try done.
  by apply ucs_loop_fuel_mono.
Qed.

(** Two runs that both finish agree. *)
Lemma ucs_search_fuel_agree fuel fuel' nav s t o o' :
  ucs_search fuel nav s t = Some o → ucs_search fuel' nav s t = Some o' → o = o'.
Proof.
  intros H H'. destruct (Nat.le_ge_cases fuel fuel') as [Hle|Hle].
  - apply (ucs_search_fuel_mono _ _ _ _ _ _ Hle) in H. congruence.
  - apply (ucs_search_fuel_mono _ _ _ _ _ _ Hle) in H'. congruence.
Qed.

(** ** Outcomes of a search *)

Lemma ucs_search_unknown fuel nav s t :
  graph nav !! s = None ∨ graph nav !! t = None →
  ucs_search fuel nav s t = Some UnknownLocation.
Proof.
  unfold ucs_search. intros [-> | ->]; [done|]. by destruct (graph nav !! s).
Qed.

Lemma ucs_search_known fuel nav s t :
  is_Some (graph nav !! s) → is_Some (graph nav !! t) →
  ucs_search fuel nav s t =
    ucs_loop fuel (graph nav) t [(0, s, [start_waypoint s])] ∅.
Proof. unfold ucs_search. by intros [? ->] [? ->]. Qed.

(** A search that finishes reports an unknown location, or no route, or the
    ledger and the totals of a path of the graph from start to goal. *)
Lemma ucs_search_outcome fuel nav s t o :
  ucs_search fuel nav s t = Some o →
  (o = UnknownLocation ∧ (graph nav !! s = None ∨ graph nav !! t = None)) ∨
  (is_Some (graph nav !! s) ∧ is_Some (graph nav !! t) ∧
   (o = NoRoute ∨
    ∃ es, walk (graph nav) s es t ∧
          o = Found (ledger_of s es) (path_cost es)
                (total e_distance es) (total e_toll es))).
Proof.
  destruct (graph nav !! s) as [ls|] eqn:Hs; cycle 1.
  { rewrite ucs_search_unknown by auto. intros [= <-]. left. auto. }
  destruct (graph nav !! t) as [lt|] eqn:Ht; cycle 1.
  { rewrite ucs_search_unknown by auto. intros [= <-]. left. auto. }
  rewrite ucs_search_known by (rewrite ?Hs, ?Ht; eauto).
  intros Hloop. right. split_and!; [eauto..|].
  eapply (ucs_loop_inv _ _ (frontier_ok (graph nav) s)) in Hloop
    as [[-> _]|(pq0 & vis0 & c & p & pq' & Hinv & Hpop & _ & ->)].
  - by left.
  - right. apply heappop_elem_of in Hpop.
    unfold frontier_ok in Hinv. rewrite list.Forall_forall in Hinv.
    destruct (Hinv _ Hpop) as (es & Hwalk & Hp & Hc).
    unfold entry_cost, entry_loc, entry_path in *; simpl in *. subst p c.
    exists es. split; [done|].
    by rewrite last_ledger_of, waypoint_after_distance, waypoint_after_toll.
  - intros. by eapply frontier_ok_skip.
  - intros. by eapply frontier_ok_step.
  - apply Forall_singleton, entry_ok_start.
Qed.

Lemma ucs_search_found fuel nav s t p c d tl :
  ucs_search fuel nav s t = Some (Found p c d tl) →
  ∃ es, walk (graph nav) s es t ∧ p = ledger_of s es ∧ c = path_cost es ∧
        d = total e_distance es ∧ tl = total e_toll es.
Proof.
  intros [[? _]|(_ & _ & [?|(es & Hwalk & [= -> -> -> ->])])]%ucs_search_outcome;
    try done.
  by exists es.
Qed.

(** ** Paths *)

Lemma walk_lookup g s es n i e :
  walk g s es n → es !! i = Some e →
  ∃ y, walk g s (take i es) y ∧ e ∈ neighbors_of g y.
Proof.
  induction 1 as [|es y e' Hwalk IH He']; [done|].
  intros [Hi|[Hlen Hi]]%lookup_app_Some.
  - rewrite take_app_le by (apply lookup_lt_Some in Hi; lia). auto.
  - apply list_lookup_singleton_Some in Hi as [Hi <-].
    replace i with (length es) by lia.
    rewrite take_app_length. eauto.
Qed.

Lemma walk_edges_nonneg g s es n :
  nonneg_costs g → walk g s es n → Forall (λ e, 0 ≤ e_cost e) es.
Proof.
  intros Hnn. induction 1 as [|es y e Hwalk IH He]; [constructor|].
  apply Forall_app. split; [done|]. apply Forall_singleton. eauto.
Qed.

Lemma path_cost_app_nonneg es es' :
  Forall (λ e, 0 ≤ e_cost e) es' → path_cost es ≤ path_cost (es ++ es').
Proof.
  unfold path_cost. induction es' as [|e es' IH] using rev_ind; intros H.
  - rewrite app_nil_r. apply Qcle_refl.
  - apply Forall_app in H as [H He]. rewrite Forall_singleton in He.
    rewrite (assoc_L (++)), total_snoc. trans (total e_cost (es ++ es')); [auto|].
    by apply Qcle_plus_nonneg.
Qed.

(** ** Completeness: no route is reported only when there is none *)

Lemma relaxed_reaches g s pq visited es n :
  relaxed g s pq visited → walk g s es n →
  is_Some (visited !! n) ∨ pq ≠ [].
Proof.
  intros [Hstart Hedges].
  assert (∀ m b, reached pq visited m b → is_Some (visited !! m) ∨ pq ≠ []) as Hr.
  { intros m b [(v & Hv & _)|(x & Hx & _)]; [eauto|].
    right. intros ->. by apply elem_of_nil in Hx. }
  induction 1 as [|es y e Hwalk IH He]; [eauto|].
  destruct IH as [[v Hv]|?]; eauto.
Qed.

(** X2. A search that reports no route is right, whatever the costs: no path
    of the graph leads from the start to the goal. *)
Theorem ucs_search_complete fuel nav s t es :
  ucs_search fuel nav s t = Some NoRoute → ¬ walk (graph nav) s es t.
Proof.
  intros Hsearch Hwalk.
  assert (is_Some (graph nav !! s) ∧ is_Some (graph nav !! t)) as [Hs Ht].
  { apply ucs_search_outcome in Hsearch as [[? _]|(? & ? & _)]; done. }
  rewrite ucs_search_known in Hsearch by done.
  eapply (ucs_loop_inv _ _
            (λ pq visited, relaxed (graph nav) s pq visited ∧ visited !! t = None))
    in Hsearch as [[_ (vis0 & Hrel & Hgoal)]|(pq0 & vis0 & c0 & p0 & pq' & _ & _ & _ & Hfound)].
  - destruct (relaxed_reaches _ _ _ _ _ _ Hrel Hwalk) as [[v Hv]|?]; [congruence|done].
  - by destruct (list.last p0).
  - intros pq visited c0 n p0 pq' [Hrel Hgoal] Hpop Hs0. split; [|done].
    by eapply relaxed_skip.
  - intros pq visited c0 n p0 pq' [Hrel Hgoal] Hpop Hs0 Hne. split.
    + by eapply relaxed_step.
    + by rewrite lookup_insert_ne.
  - split; [apply relaxed_start|apply lookup_empty].
Qed.

(** ** Termination when costs are non-negative *)

Lemma settled_below_skip pq visited x pq' :
  settled_below pq visited → heappop pq = Some (x, pq') → settled_below pq' visited.
Proof. intros Hsb Hpop y v z Hy Hz. eapply Hsb; eauto using heappop_rest. Qed.

Lemma settled_below_step g pq visited c n p pq' :
  nonneg_costs g → settled_below pq visited →
  heappop pq = Some ((c, n, p), pq') →
  settled_below (expand (<[n := c]> visited) c p (neighbors_of g n) pq')
    (<[n := c]> visited).
Proof.
  intros Hnn Hsb Hpop y v x Hy Hx.
  assert (v ≤ c) as Hvc.
  { destruct (decide (n = y)) as [->|Hne].
    - rewrite lookup_insert_eq in Hy. injection Hy as <-. apply Qcle_refl.
    - rewrite lookup_insert_ne in Hy by done.
      apply (Hsb _ _ _ Hy (heappop_elem_of _ _ _ Hpop)). }
  apply elem_of_expand in Hx as [Hx|(e & He & _ & ->)].
  - trans c; [done|].
    apply (heappop_min _ _ _ Hpop x). eauto using heappop_rest.
  - trans c; [done|]. apply Qcle_plus_nonneg. eauto.
Qed.

Lemma settled_below_unsettled pq visited c n p pq' :
  settled_below pq visited → heappop pq = Some ((c, n, p), pq') →
  already_settled visited n c = false → visited !! n = None.
Proof.
  intros Hsb Hpop Hs. destruct (visited !! n) as [v|] eqn:Hv; [|done].
  pose proof (Hsb _ _ _ Hv (heappop_elem_of _ _ _ Hpop)) as Hle.
  pose proof (already_settled_false _ _ _ _ Hs Hv) as Hlt.
  by apply Qclt_nge in Hlt.
Qed.

Lemma length_expand visited c p neighbors pq :
  (length (expand visited c p neighbors pq) ≤ length pq + length neighbors)%nat.
Proof.
  unfold expand. revert pq. induction neighbors as [|e rest IH]; intros pq; simpl; [lia|].
  etrans; [apply IH|]. unfold relax, heappush.
  destruct (worth_pushing _ _ _); rewrite ?length_app; simpl; lia.
Qed.

Lemma unsettled_records_settle g visited n c :
  visited !! n = None →
  (unsettled_records g (<[n := c]> visited) + length (neighbors_of g n)
   = unsettled_records g visited)%nat.
Proof.
  intros Hn. unfold unsettled_records.
  induction g as [|k l m Hk IH] using map_ind.
  - by rewrite map_to_list_empty.
  - rewrite !map_to_list_insert by done. simpl.
    unfold neighbors_of in *. destruct (decide (k = n)) as [->|Hne].
    + rewrite !lookup_insert_eq, Hn. rewrite Hk in IH. simpl in *. lia.
    + rewrite !lookup_insert_ne by done.
      destruct (visited !! k); simpl; lia.
Qed.

Lemma heappop_length pq x pq' :
  heappop pq = Some (x, pq') → length pq = S (length pq').
Proof. intros H%heappop_perm. by rewrite H. Qed.

(** Each iteration takes an entry out of the frontier, and puts back at most
    the records of a location that it settles for the first time. *)
Lemma ucs_loop_terminates g goal_loc n pq visited :
  nonneg_costs g → settled_below pq visited →
  (length pq + unsettled_records g visited ≤ n)%nat →
  ∃ o, ucs_loop (S n) g goal_loc pq visited = Some o.
Proof.
  intros Hnn. revert pq visited.
  induction n as [|n IH]; intros pq visited Hsb Hn; simpl.
  - destruct pq; [eauto|simpl in Hn; lia].
  - destruct (heappop pq) as [[[[c l] p] pq']|] eqn:Hpop; [|eauto].
    pose proof (heappop_length _ _ _ Hpop) as Hlen.
    destruct (already_settled visited l c) eqn:Hs.
    + apply IH; [by eapply settled_below_skip|lia].
    + case_decide; [destruct (list.last p); eauto|].
      apply IH; [by eapply settled_below_step|].
      pose proof (settled_below_unsettled _ _ _ _ _ _ Hsb Hpop Hs) as Hnew.
      pose proof (unsettled_records_settle g visited l c Hnew).
      pose proof (length_expand (<[l := c]> visited) c p (neighbors_of g l) pq').
      lia.
Qed.

(** With non-negative costs the search returns: some amount of fuel is enough
    for a result. *)
Theorem ucs_search_terminates nav s t :
  nonneg_costs (graph nav) → ∃ fuel o, ucs_search fuel nav s t = Some o.
Proof.
  intros Hnn. destruct (graph nav !! s) as [ls|] eqn:Hs; cycle 1.
  { exists 0%nat. rewrite ucs_search_unknown; eauto. }
  destruct (graph nav !! t) as [lt|] eqn:Ht; cycle 1.
  { exists 0%nat. rewrite ucs_search_unknown; eauto. }
  exists (S (1 + unsettled_records (graph nav) ∅)).
  rewrite ucs_search_known by (rewrite ?Hs, ?Ht; eauto).
  apply ucs_loop_terminates; [done| |simpl; lia].
  intros y v x Hy. by rewrite lookup_empty in Hy.
Qed.

(** Non-negativity of the costs of a given graph, by inspection of its lists. *)
Lemma nonneg_costs_check g :
  map_Forall (λ _ l, Forall (λ e, Qc_leb 0 (e_cost e) = true) l) g →
  nonneg_costs g.
Proof.
  intros Hall k e. unfold neighbors_of.
  destruct (g !! k) as [l|] eqn:Hk; [|by intros ?%elem_of_nil].
  intros He. specialize (Hall k l Hk). simpl in Hall.
  rewrite list.Forall_forall in Hall. by apply Qc_leb_le, Hall.
Qed.

Lemma abc_network_nonneg : nonneg_costs (graph abc_network).
Proof.
  apply nonneg_costs_check.
  apply (bool_decide_unpack _). vm_compute. exact I.
Qed.

(** ** Runs on the concrete networks *)

Local Ltac run_search :=
  vm_compute; repeat f_equal; apply Qc_is_canon; reflexivity.

Lemma abc_network_search :
  ucs_search 3 abc_network "A" "C" =
    Some (Found abc_ledger (Q2Qc (192 # 1)) (Q2Qc (135 # 1)) (Q2Qc (275 # 1))).
Proof. run_search. Qed.

Lemma islands_search : ucs_search 2 islands "A" "B" = Some NoRoute.
Proof. reflexivity. Qed.

Lemma downhill_search :
  ucs_search 2 downhill "A" "B" =
    Some (Found [Waypoint "A" 0 0 0 "Starting Point";
                 Waypoint "B" (- Q2Qc (5 # 1)) (- Q2Qc (5 # 1)) 0 "Local Road"]
            (- Q2Qc (5 # 1)) (- Q2Qc (5 # 1)) 0).
Proof. run_search. Qed.

(** ** A single highway *)

(** The search along the only record out of the start. *)
Lemma direct_highway_search fuel nav a b r :
  a ≠ b → graph nav !! a = Some [r] → is_Some (graph nav !! b) → e_to r = b →
  ucs_search (S (S fuel)) nav a b =
    Some (Found [start_waypoint a;
                 Waypoint b (0 + e_cost r) (0 + e_distance r) (0 + e_toll r)
                   (highway_or_local (e_highway r))]
            (0 + e_cost r) (0 + e_distance r) (0 + e_toll r)).
Proof.
  intros Hne Ha Hb Hr. rewrite ucs_search_known by (rewrite ?Ha; eauto).
  cbn [ucs_loop heappop]. unfold already_settled at 1. rewrite lookup_empty.
  rewrite decide_False by done.
  unfold neighbors_of. rewrite Ha. cbn [expand fold_left]. unfold relax.
  rewrite Hr. unfold worth_pushing. rewrite lookup_insert_ne, lookup_empty by done.
  cbn [heappush app heappop]. unfold already_settled.
  rewrite lookup_insert_ne, lookup_empty by done.
  rewrite decide_True by done. reflexivity.
Qed.

Lemma self_search fuel nav a :
  is_Some (graph nav !! a) →
  ucs_search (S fuel) nav a a = Some (Found [start_waypoint a] 0 0 0).
Proof.
  intros Ha. rewrite ucs_search_known by done.
  cbn [ucs_loop heappop]. unfold already_settled. rewrite lookup_empty.
  by rewrite decide_True.
Qed.

(** * Claims *)

(** C1. In a graph whose adjacency records all have a non-negative cost, the
    [total_cost] of a successful [ucs_search] is the least cost of a simple
    path from start to goal: some simple path has that cost and no simple
    path costs less. *)
Theorem ucs_search_optimal fuel nav s t p c d tl :
  nonneg_costs (graph nav) →
  ucs_search fuel nav s t = Some (Found p c d tl) →
  min_path_cost (graph nav) s t c.
Proof.
  intros Hnn Hsearch.
  assert (is_Some (graph nav !! s) ∧ is_Some (graph nav !! t)) as [Hs Ht].
  { apply ucs_search_outcome in Hsearch as [[? _]|(? & ? & _)]; done. }
  rewrite ucs_search_known in Hsearch by done.
  eapply (ucs_loop_inv _ _
            (λ pq visited, frontier_simple (graph nav) s pq visited ∧
                           relaxed (graph nav) s pq visited))
    in Hsearch as [[? _]|(pq0 & vis0 & c0 & p0 & pq' & [[Hok Hsimple] Hrel] & Hpop & Hs0 & Hfound)];
    [done| | | |].
  - assert (p0 = p ∧ c0 = c) as [-> ->].
    { destruct (list.last p0); by simplify_eq. }
    pose proof (heappop_elem_of _ _ _ Hpop) as Hin.
    rewrite list.Forall_forall in Hok, Hsimple.
    destruct (Hok _ Hin) as (es & Hwalk & Hp & Hc).
    destruct (Hsimple _ Hin) as [Hnd _].
    unfold entry_cost, entry_loc, entry_path in *; simpl in *. split.
    + exists es. split; [|done]. split; [done|].
      by rewrite <- ledger_of_locs, <- Hp.
    + intros es' [Hwalk' _]. by eapply popped_is_lower_bound.
  - intros pq visited c0 n p0 pq' [Hfs Hrel] Hpop Hs0. split.
    + by eapply frontier_simple_skip.
    + by eapply relaxed_skip.
  - intros pq visited c0 n p0 pq' [Hfs Hrel] Hpop Hs0 _. split.
    + by eapply frontier_simple_step.
    + by eapply relaxed_step.
  - split; [apply frontier_simple_start|apply relaxed_start].
Qed.

(** C1 at the network of A, B and C. *)
Lemma ucs_search_optimal_witness :
  nonneg_costs (graph abc_network) ∧
  ucs_search 3 abc_network "A" "C" =
    Some (Found abc_ledger (Q2Qc (192 # 1)) (Q2Qc (135 # 1)) (Q2Qc (275 # 1))) ∧
  min_path_cost (graph abc_network) "A" "C" (Q2Qc (192 # 1)).
Proof.
  split_and!.
  - exact abc_network_nonneg.
  - exact abc_network_search.
  - exact (ucs_search_optimal 3 abc_network "A" "C" abc_ledger
             (Q2Qc (192 # 1)) (Q2Qc (135 # 1)) (Q2Qc (275 # 1))
             abc_network_nonneg abc_network_search).
Defined.

(** C2 (as amended). On the network of A, B and C with highways A-B
    (80, 1.3, 180: cost 122), B-C (55, 1.1, 95: cost 70) and A-C (200, 1.0, 0:
    cost 200), [ucs_search] from A to C returns the ledger A, B, C with
    [total_cost] 192, whenever it is given three iterations or more. *)
Theorem abc_network_route fuel :
  highway_cost (Q2Qc (80 # 1)) (Q2Qc (13 # 10)) (Q2Qc (180 # 1)) = Q2Qc (122 # 1) ∧
  highway_cost (Q2Qc (55 # 1)) (Q2Qc (11 # 10)) (Q2Qc (95 # 1)) = Q2Qc (70 # 1) ∧
  highway_cost (Q2Qc (200 # 1)) 1 0 = Q2Qc (200 # 1) ∧
  w_loc <$> abc_ledger = ["A"; "B"; "C"]%string ∧
  ucs_search (3 + fuel) abc_network "A" "C" =
    Some (Found abc_ledger (Q2Qc (192 # 1)) (Q2Qc (135 # 1)) (Q2Qc (275 # 1))).
Proof.
  split_and!; try (apply Qc_is_canon; reflexivity); [done|].
  apply (ucs_search_fuel_mono 3); [lia|]. exact abc_network_search.
Qed.

(** The doubles nearest to 1.3 and 1.1 give the same costs: 122 and 70 for the
    two highways through B, 192 for the route. *)
Lemma abc_network_binary64 :
  highway_cost_binary64 80 0x1.4cccccccccccdp+0 180 = 122%float ∧
  highway_cost_binary64 55 0x1.199999999999ap+0 95 = 70%float ∧
  (0 + 122 + 70 = 192)%float.
Proof. by vm_compute. Qed.

(** C2 as stated fails: the B-C highway costs 70, not 69.5, and no run of the
    search from A to C returns a total cost of 191.5. *)
Lemma abc_network_not_191_5 :
  highway_cost (Q2Qc (55 # 1)) (Q2Qc (11 # 10)) (Q2Qc (95 # 1)) ≠ Q2Qc (139 # 2) ∧
  ¬ ∃ fuel p d tl,
      ucs_search fuel abc_network "A" "C" = Some (Found p (Q2Qc (383 # 2)) d tl).
Proof.
  split.
  - intros H. apply (f_equal this) in H. vm_compute in H. discriminate.
  - intros (fuel & p & d & tl & H).
    pose proof (ucs_search_fuel_agree _ _ _ _ _ _ _ H abc_network_search) as Heq.
    apply (f_equal (λ o, match o with Found _ c _ _ => this c | _ => 0%Q end)) in Heq.
    vm_compute in Heq. discriminate.
Qed.

(** C3 (as amended). A call [add_highway(from_loc, to_loc, ...)] between two
    different locations appends exactly one record to the list of each
    endpoint, the list of an endpoint that was absent being created empty
    first; both records carry the cost
    [distance * traffic_factor + toll / 10] and the same distance, traffic,
    toll and label; every other list and the display names are unchanged. *)
Theorem add_highway_records nav from_loc to_loc d tf toll label :
  from_loc ≠ to_loc →
  let nav' := add_highway from_loc to_loc d tf toll label nav in
  let cost := d * tf + toll / Q2Qc (10 # 1) in
  graph nav' !! from_loc =
    Some (neighbors_of (graph nav) from_loc ++ [Edge to_loc cost d tf toll label]) ∧
  graph nav' !! to_loc =
    Some (neighbors_of (graph nav) to_loc ++ [Edge from_loc cost d tf toll label]) ∧
  (∀ k, k ≠ from_loc → k ≠ to_loc → graph nav' !! k = graph nav !! k) ∧
  locations nav' = locations nav.
Proof.
  intros Hne nav' cost. subst nav'. split_and!.
  - rewrite add_highway_lookup. rewrite decide_True by auto.
    rewrite decide_True, decide_False by done. by rewrite app_nil_r.
  - rewrite add_highway_lookup. rewrite decide_True by auto.
    by rewrite decide_False, decide_True by done.
  - intros k Hf Ht. rewrite add_highway_lookup. rewrite decide_False; [done|tauto].
  - done.
Qed.

(** C3 at a highway from A to B in the empty network. *)
Lemma add_highway_records_witness :
  "A"%string ≠ "B"%string ∧
  graph (add_highway "A" "B" 1 1 0 "NLEX" init) !! "A"%string =
    Some (neighbors_of (graph init) "A"
          ++ [Edge "B" (1 * 1 + 0 / Q2Qc (10 # 1)) 1 1 0 "NLEX"]).
Proof.
  split; [done|].
  exact (proj1 (add_highway_records init "A" "B" 1 1 0 "NLEX" ltac:(done))).
Defined.

(** C3 as stated fails for a highway from a location to itself: the one list
    receives both records. *)
Lemma add_highway_self_loop_two_records :
  ¬ ∃ r, graph (add_highway "A" "A" 1 1 0 "" init) !! "A"%string =
           Some (neighbors_of (graph init) "A" ++ [r]).
Proof.
  intros [r Hr]. rewrite add_highway_self_loop in Hr.
  apply (f_equal (λ o, length <$> o)) in Hr. simpl in Hr.
  vm_compute in Hr. discriminate.
Qed.

(** C4 (as amended). A finished [ucs_search] hands back one of two
    distinguishable values: the tuple of ledger, total cost, total distance
    and total toll, or the tuple of four [None]; the latter is returned both
    when the frontier empties and when start or goal is absent, and only the
    printed diagnostic tells these two apart. *)
Theorem ucs_search_return_values fuel nav s t o :
  ucs_search fuel nav s t = Some o →
  (∃ p c d tl, o = Found p c d tl ∧
               return_value o = Some (Some p, Some c, Some d, Some tl)) ∨
  (return_value o = Some (None, None, None, None) ∧
   (o = NoRoute ∧ printed o = Some MsgNoRoute ∨
    o = UnknownLocation ∧ printed o = Some MsgLocationNotFound)).
Proof.
  intros [[-> _]|(_ & _ & [->|(es & _ & ->)])]%ucs_search_outcome.
  - right. auto.
  - right. auto.
  - left. eauto 10.
Qed.

(** C4 at the search between the two islands. *)
Lemma ucs_search_return_values_witness :
  ucs_search 2 islands "A" "B" = Some NoRoute ∧
  ((∃ p c d tl, NoRoute = Found p c d tl ∧
                return_value NoRoute = Some (Some p, Some c, Some d, Some tl)) ∨
   (return_value NoRoute = Some (None, None, None, None) ∧
    (NoRoute = NoRoute ∧ printed NoRoute = Some MsgNoRoute ∨
     NoRoute = UnknownLocation ∧ printed NoRoute = Some MsgLocationNotFound))).
Proof.
  split; [reflexivity|].
  exact (ucs_search_return_values 2 islands "A" "B" NoRoute eq_refl).
Defined.

(** C4 as stated fails: the search that finds no route and the search from an
    unknown location return the same value. *)
Lemma failures_return_the_same :
  ucs_search 2 islands "A" "B" = Some NoRoute ∧
  ucs_search 2 islands "X" "B" = Some UnknownLocation ∧
  return_value NoRoute = return_value UnknownLocation.
Proof. done. Qed.

(** C5 (as amended). The ledger of a successful [ucs_search] follows a path
    of the graph from start to goal; the cumulative distance and toll of its
    waypoint number [i] are the sums of the distances and tolls of the first
    [i] records of that path; and when every cost of the graph is
    non-negative, the cumulative costs never decrease along the ledger. *)
Theorem ledger_consistent fuel nav s t p c d tl :
  ucs_search fuel nav s t = Some (Found p c d tl) →
  ∃ es,
    walk (graph nav) s es t ∧
    w_loc <$> p = s :: (e_to <$> es) ∧
    (∀ i w, p !! i = Some w →
            w_distance w = total e_distance (take i es) ∧
            w_toll w = total e_toll (take i es)) ∧
    (nonneg_costs (graph nav) →
     ∀ i j wi wj, (i ≤ j)%nat → p !! i = Some wi → p !! j = Some wj →
                  w_cost wi ≤ w_cost wj).
Proof.
  intros (es & Hwalk & -> & _)%ucs_search_found.
  exists es. split_and!; [done|apply ledger_of_locs| |].
  - intros i w ->%ledger_of_lookup.
    by rewrite waypoint_after_distance, waypoint_after_toll.
  - intros Hnn i j wi wj Hij ->%ledger_of_lookup ->%ledger_of_lookup.
    rewrite !waypoint_after_cost.
    rewrite <- (take_drop i (take j es)), take_take, Nat.min_l by done.
    apply path_cost_app_nonneg.
    pose proof (walk_edges_nonneg _ _ _ _ Hnn Hwalk) as Hall.
    rewrite list.Forall_forall in Hall |- *.
    intros e He. apply Hall.
    by apply (subseteq_take j), (subseteq_drop i).
Qed.

(** C5 at the network of A, B and C. *)
Lemma ledger_consistent_witness :
  ucs_search 3 abc_network "A" "C" =
    Some (Found abc_ledger (Q2Qc (192 # 1)) (Q2Qc (135 # 1)) (Q2Qc (275 # 1))) ∧
  ∃ es,
    walk (graph abc_network) "A" es "C" ∧
    w_loc <$> abc_ledger = "A"%string :: (e_to <$> es) ∧
    (∀ i w, abc_ledger !! i = Some w →
            w_distance w = total e_distance (take i es) ∧
            w_toll w = total e_toll (take i es)) ∧
    (nonneg_costs (graph abc_network) →
     ∀ i j wi wj, (i ≤ j)%nat → abc_ledger !! i = Some wi → abc_ledger !! j = Some wj →
                  w_cost wi ≤ w_cost wj).
Proof.
  split; [exact abc_network_search|].
  exact (ledger_consistent 3 abc_network "A" "C" abc_ledger
           (Q2Qc (192 # 1)) (Q2Qc (135 # 1)) (Q2Qc (275 # 1)) abc_network_search).
Defined.

(** C5 as stated fails on a highway of negative distance, which
    [add_highway] accepts: the cumulative cost drops from 0 to -5. *)
Lemma downhill_ledger_decreases :
  ∃ p c d tl wi wj,
    ucs_search 2 downhill "A" "B" = Some (Found p c d tl) ∧
    p !! 0%nat = Some wi ∧ p !! 1%nat = Some wj ∧
    ¬ w_cost wi ≤ w_cost wj.
Proof.
  do 6 eexists. split_and!; [exact downhill_search|done|done|].
  simpl. by apply Qclt_not_le.
Qed.

(** C6. [ucs_search] takes the unknown-location branch exactly when start or
    goal is not a key of the graph; after [add_highway] both endpoints are
    keys, with no display name added, so a search between them does not take
    that branch; and the outcome of a search does not depend on the display
    names. *)
Theorem unknown_location_iff fuel nav s t from_loc to_loc d tf toll label names :
  (ucs_search fuel nav s t = Some UnknownLocation ↔
   graph nav !! s = None ∨ graph nav !! t = None) ∧
  (let nav' := add_highway from_loc to_loc d tf toll label nav in
   locations nav' = locations nav ∧
   ucs_search fuel nav' from_loc to_loc ≠ Some UnknownLocation ∧
   ucs_search fuel nav' to_loc from_loc ≠ Some UnknownLocation ∧
   ucs_search fuel nav' from_loc to_loc =
     ucs_loop fuel (graph nav') to_loc [(0, from_loc, [start_waypoint from_loc])] ∅) ∧
  ucs_search fuel (Navigator (graph nav) names (start nav) (goal nav)) s t =
    ucs_search fuel nav s t.
Proof.
  assert (∀ nav0 a b, is_Some (graph nav0 !! a) → is_Some (graph nav0 !! b) →
                      ucs_search fuel nav0 a b ≠ Some UnknownLocation) as Hknown.
  { intros nav0 a b [la Ha] [lb Hb] [[_ [H|H]]|(_ & _ & [?|(? & _ & ?)])]%ucs_search_outcome;
      congruence. }
  assert (∀ k, k = from_loc ∨ k = to_loc →
               is_Some (graph (add_highway from_loc to_loc d tf toll label nav) !! k))
    as Hkeys.
  { intros k Hk. rewrite add_highway_lookup, decide_True by done. eauto. }
  split_and!.
  - split; [|apply ucs_search_unknown].
    intros [[_ ?]|(_ & _ & [?|(? & _ & ?)])]%ucs_search_outcome; done.
  - intros nav'. subst nav'. split_and!.
    + done.
    + apply Hknown; auto.
    + apply Hknown; auto.
    + apply ucs_search_known; auto.
  - done.
Qed.

(** C7. In the network made of two registered locations and one call of
    [add_highway] between them, the searches in the two directions succeed
    with the same total cost. *)
Theorem single_highway_symmetric fuel a b name_a name_b d tf toll label :
  let nav := add_highway a b d tf toll label
               (add_location b name_b (add_location a name_a init)) in
  ∃ c p1 d1 t1 p2 d2 t2,
    ucs_search (S (S fuel)) nav a b = Some (Found p1 c d1 t1) ∧
    ucs_search (S (S fuel)) nav b a = Some (Found p2 c d2 t2).
Proof.
  intros nav.
  assert (∀ k, neighbors_of (graph (add_location b name_b (add_location a name_a init))) k = [])
    as Hempty.
  { intros k. simpl. by rewrite !ensure_entry_neighbors. }
  destruct (decide (a = b)) as [->|Hne].
  - exists 0. do 6 eexists. split; apply self_search;
      subst nav; rewrite add_highway_lookup, decide_True by auto; eauto.
  - exists (0 + highway_cost d tf toll). do 6 eexists. split.
    + apply (direct_highway_search _ _ _ _ (Edge b (highway_cost d tf toll) d tf toll label));
        [done| | |done]; subst nav; rewrite add_highway_lookup, decide_True by auto; [|eauto].
      by rewrite Hempty, decide_True, decide_False.
    + apply (direct_highway_search _ _ _ _ (Edge a (highway_cost d tf toll) d tf toll label));
        [done| | |done]; subst nav; rewrite add_highway_lookup, decide_True by auto; [|eauto].
      by rewrite Hempty, decide_False, decide_True.
Qed.

(** C8. After a call of [add_location], any further calls of the two methods
    and a second call of [add_location] with the same identifier, the display
    names hold the second name under that identifier and no further entry;
    the graph holds an adjacency list for it; and the second call leaves the
    graph, hence every adjacency record present before it, as it was. *)
Theorem add_location_twice nav location_id name1 name2 cs :
  let nav1 := apply_calls cs (add_location location_id name1 nav) in
  let nav2 := add_location location_id name2 nav1 in
  locations nav2 !! location_id = Some name2 ∧
  (∀ k, k ≠ location_id → locations nav2 !! k = locations nav1 !! k) ∧
  dom (locations nav2) = dom (locations nav1) ∧
  size (locations nav2) = size (locations nav1) ∧
  graph nav2 = graph nav1 ∧
  is_Some (graph nav2 !! location_id).
Proof.
  intros nav1 nav2.
  assert (is_Some (graph nav1 !! location_id)) as Hkey.
  { apply apply_calls_keeps_key. rewrite add_location_lookup_graph. eauto. }
  assert (graph nav2 = graph nav1) as Hgraph.
  { by apply add_location_graph_present. }
  assert (dom (locations nav2) = dom (locations nav1)) as Hdom.
  { subst nav2. simpl. rewrite dom_insert_L.
    apply subseteq_union_1_L, singleton_subseteq_l, elem_of_dom.
    apply apply_calls_keeps_name. simpl. rewrite lookup_insert_eq. eauto. }
  split_and!.
  - apply lookup_insert_eq.
  - intros k Hk. by apply lookup_insert_ne.
  - done.
  - by rewrite <- !size_dom, Hdom.
  - done.
  - by rewrite Hgraph.
Qed.

(** C9. For the totals of a successful [ucs_search], [analyze_algorithm]
    derives [estimated_hours = total_distance / 60],
    [fuel_cost = total_distance * 2.5] and
    [trip_cost = total_toll + fuel_cost]. *)
Theorem trip_metrics_of_success fuel nav s t p c d tl :
  ucs_search fuel nav s t = Some (Found p c d tl) →
  ∃ r m,
    return_value (Found p c d tl) = Some r ∧
    analyze_algorithm r = Some m ∧
    estimated_hours m = d / Q2Qc (60 # 1) ∧
    fuel_cost m = d * Q2Qc (5 # 2) ∧
    trip_cost m = tl + fuel_cost m.
Proof.
  intros (es & _ & -> & _)%ucs_search_found.
  eexists _, _. split_and!; reflexivity.
Qed.

(** C9 at the network of A, B and C. *)
Lemma trip_metrics_of_success_witness :
  ucs_search 3 abc_network "A" "C" =
    Some (Found abc_ledger (Q2Qc (192 # 1)) (Q2Qc (135 # 1)) (Q2Qc (275 # 1))) ∧
  ∃ r m,
    return_value
      (Found abc_ledger (Q2Qc (192 # 1)) (Q2Qc (135 # 1)) (Q2Qc (275 # 1))) = Some r ∧
    analyze_algorithm r = Some m ∧
    estimated_hours m = Q2Qc (135 # 1) / Q2Qc (60 # 1) ∧
    fuel_cost m = Q2Qc (135 # 1) * Q2Qc (5 # 2) ∧
    trip_cost m = Q2Qc (275 # 1) + fuel_cost m.
Proof.
  split; [exact abc_network_search|].
  exact (trip_metrics_of_success 3 abc_network "A" "C" abc_ledger
           (Q2Qc (192 # 1)) (Q2Qc (135 # 1)) (Q2Qc (275 # 1)) abc_network_search).
Defined.

(** C10. The ledger of a successful [ucs_search] starts with the start
    location at cost, distance and toll zero under the label
    "Starting Point"; it ends at the goal; each waypoint after the first is
    obtained from the one before it through an adjacency record of that
    waypoint's location; and the returned totals are the cumulative cost,
    distance and toll of the last waypoint. *)
Theorem ledger_shape fuel nav s t p c d tl :
  ucs_search fuel nav s t = Some (Found p c d tl) →
  p !! 0%nat = Some (Waypoint s 0 0 0 "Starting Point") ∧
  (∃ w, list.last p = Some w ∧ w_loc w = t ∧
        c = w_cost w ∧ d = w_distance w ∧ tl = w_toll w) ∧
  (∀ i a b, p !! i = Some a → p !! S i = Some b → follows (graph nav) a b).
Proof.
  intros (es & Hwalk & -> & -> & -> & ->)%ucs_search_found. split_and!.
  - done.
  - exists (waypoint_after s es). split_and!.
    + apply last_ledger_of.
    + by eapply waypoint_after_loc.
    + by rewrite waypoint_after_cost.
    + by rewrite waypoint_after_distance.
    + by rewrite waypoint_after_toll.
  - intros i a b Ha Hb.
    assert (i < length es)%nat as Hi.
    { apply lookup_lt_Some in Hb. rewrite length_ledger_of in Hb. lia. }
    apply ledger_of_lookup in Ha as ->. apply ledger_of_lookup in Hb as ->.
    destruct (lookup_lt_is_Some_2 es i Hi) as [e He].
    destruct (walk_lookup _ _ _ _ _ _ Hwalk He) as (y & Hy & Hin).
    rewrite (take_S_r _ _ _ He), waypoint_after_snoc.
    exists e. rewrite (waypoint_after_loc _ _ _ _ Hy).
    rewrite waypoint_after_cost, waypoint_after_distance, waypoint_after_toll.
    by split_and!.
Qed.

(** C10 at the network of A, B and C. *)
Lemma ledger_shape_witness :
  ucs_search 3 abc_network "A" "C" =
    Some (Found abc_ledger (Q2Qc (192 # 1)) (Q2Qc (135 # 1)) (Q2Qc (275 # 1))) ∧
  abc_ledger !! 0%nat = Some (Waypoint "A" 0 0 0 "Starting Point") ∧
  (∃ w, list.last abc_ledger = Some w ∧ w_loc w = "C"%string ∧
        Q2Qc (192 # 1) = w_cost w ∧ Q2Qc (135 # 1) = w_distance w ∧
        Q2Qc (275 # 1) = w_toll w) ∧
  (∀ i a b, abc_ledger !! i = Some a → abc_ledger !! S i = Some b →
            follows (graph abc_network) a b).
Proof.
  split; [exact abc_network_search|].
  exact (ledger_shape 3 abc_network "A" "C" abc_ledger
           (Q2Qc (192 # 1)) (Q2Qc (135 # 1)) (Q2Qc (275 # 1)) abc_network_search).
Defined.

(** * The rest of the program *)

(** ** More on the search *)

Lemma unsettled_records_empty g : unsettled_records g ∅ = total_records g.
Proof.
  unfold unsettled_records, total_records.
  induction (map_to_list g) as [|kl l IH]; [done|].
  simpl. by rewrite lookup_empty, IH.
Qed.

(** The loop started by [ucs_search] stops within two iterations more than
    there are adjacency records. *)
Lemma ucs_loop_bound g s t :
  nonneg_costs g →
  ∃ o, ucs_loop (2 + total_records g) g t [(0, s, [start_waypoint s])] ∅ = Some o.
Proof.
  intros Hnn. apply ucs_loop_terminates; [done| |].
  - intros y v x Hy. by rewrite lookup_empty in Hy.
  - rewrite unsettled_records_empty. simpl. lia.
Qed.

Lemma ucs_loop_no_route fuel g s t es :
  ucs_loop fuel g t [(0, s, [start_waypoint s])] ∅ = Some NoRoute →
  ¬ walk g s es t.
Proof.
  intros Hloop Hwalk.
  eapply (ucs_loop_inv _ _
            (λ pq visited, relaxed g s pq visited ∧ visited !! t = None))
    in Hloop as [[_ (vis0 & Hrel & Hgoal)]|(pq0 & vis0 & c0 & p0 & pq' & _ & _ & _ & Hfound)].
  - destruct (relaxed_reaches _ _ _ _ _ _ Hrel Hwalk) as [[v Hv]|?]; [congruence|done].
  - by destruct (list.last p0).
  - intros pq visited c0 n p0 pq' [Hrel Hgoal] Hpop Hs0. split; [|done].
    by eapply relaxed_skip.
  - intros pq visited c0 n p0 pq' [Hrel Hgoal] Hpop Hs0 Hne. split.
    + by eapply relaxed_step.
    + by rewrite lookup_insert_ne.
  - split; [apply relaxed_start|apply lookup_empty].
Qed.

(** With non-negative costs a returned total cost is at most the cost of any
    path from start to goal, simple or not. *)
Lemma found_cost_lower_bound fuel nav s t p c d tl es :
  nonneg_costs (graph nav) →
  ucs_search fuel nav s t = Some (Found p c d tl) →
  walk (graph nav) s es t → c ≤ path_cost es.
Proof.
  intros Hnn Hsearch Hwalk.
  assert (is_Some (graph nav !! s) ∧ is_Some (graph nav !! t)) as [Hs Ht].
  { apply ucs_search_outcome in Hsearch as [[? _]|(? & ? & _)]; done. }
  rewrite ucs_search_known in Hsearch by done.
  eapply (ucs_loop_inv _ _ (relaxed (graph nav) s))
    in Hsearch as [[? _]|(pq0 & vis0 & c0 & p0 & pq' & Hrel & Hpop & Hs0 & Hfound)];
    [done| | | |].
  - assert (c0 = c) as ->. { destruct (list.last p0); by simplify_eq. }
    by eapply popped_is_lower_bound.
  - intros. by eapply relaxed_skip.
  - intros. by eapply relaxed_step.
  - apply relaxed_start.
Qed.

(** X1. When no cost is negative, [ucs_search] returns within two iterations
    more than the graph has adjacency records. *)
Theorem ucs_search_iteration_bound nav s t :
  nonneg_costs (graph nav) →
  ∃ o, ucs_search (2 + total_records (graph nav)) nav s t = Some o.
Proof.
  intros Hnn. destruct (graph nav !! s) as [ls|] eqn:Hs; cycle 1.
  { rewrite ucs_search_unknown; eauto. }
  destruct (graph nav !! t) as [lt|] eqn:Ht; cycle 1.
  { rewrite ucs_search_unknown; eauto. }
  rewrite ucs_search_known by (rewrite ?Hs, ?Ht; eauto).
  by apply ucs_loop_bound.
Qed.

(** X1 at the network of A, B and C. *)
Lemma ucs_search_iteration_bound_witness :
  nonneg_costs (graph abc_network) ∧
  ∃ o, ucs_search (2 + total_records (graph abc_network)) abc_network "A" "C" = Some o.
Proof.
  split; [exact abc_network_nonneg|].
  exact (ucs_search_iteration_bound abc_network "A" "C" abc_network_nonneg).
Defined.

(** X3. When no cost is negative and some path leads from a known start to a
    known goal, [ucs_search] returns a route, within the same number of
    iterations, and the route costs no more than that path. *)
Theorem ucs_search_finds_route nav s t es :
  nonneg_costs (graph nav) →
  is_Some (graph nav !! s) → is_Some (graph nav !! t) →
  walk (graph nav) s es t →
  ∃ es', walk (graph nav) s es' t ∧
         ucs_search (2 + total_records (graph nav)) nav s t =
           Some (Found (ledger_of s es') (path_cost es')
                   (total e_distance es') (total e_toll es')) ∧
         path_cost es' ≤ path_cost es.
Proof.
  intros Hnn Hs Ht Hwalk.
  destruct (ucs_loop_bound (graph nav) s t Hnn) as [o Ho].
  rewrite <- ucs_search_known in Ho by done.
  pose proof Ho as [[-> [H|H]]|(_ & _ & [->|(es' & Hwalk' & ->)])]%ucs_search_outcome.
  - rewrite H in Hs. by destruct Hs.
  - rewrite H in Ht. by destruct Ht.
  - rewrite ucs_search_known in Ho by done.
    by destruct (ucs_loop_no_route _ _ _ _ es Ho).
  - exists es'. split_and!; [done..|].
    by eapply found_cost_lower_bound.
Qed.

(** X4. [ucs_search] never fails on [path_info[-1]]: no ledger in the frontier
    is empty, whatever the graph. *)
Theorem ucs_search_never_raises fuel nav s t :
  ucs_search fuel nav s t ≠ Some RaisedIndexError.
Proof.
  intros [[? _]|(_ & _ & [?|(es & _ & ?)])]%ucs_search_outcome; done.
Qed.

(** X5. A search from a known location to itself returns in its first
    iteration the ledger of the start alone, with all totals zero, whatever
    highways the graph has. *)
Theorem search_to_self fuel nav a :
  is_Some (graph nav !! a) →
  ucs_search (S fuel) nav a a =
    Some (Found [Waypoint a 0 0 0 "Starting Point"] 0 0 0).
Proof. apply self_search. Qed.

(** X5 at location A of the network of A, B and C. *)
Lemma search_to_self_witness :
  is_Some (graph abc_network !! "A"%string) ∧
  ucs_search 1 abc_network "A" "A" =
    Some (Found [Waypoint "A" 0 0 0 "Starting Point"] 0 0 0).
Proof.
  assert (is_Some (graph abc_network !! "A"%string)) as H by (vm_compute; eauto).
  split; [exact H|]. exact (search_to_self 0 abc_network "A" H).
Defined.

(** X6. When no cost is negative, the returned ledger visits no location
    twice. *)
Theorem found_ledger_no_repeat fuel nav s t p c d tl :
  nonneg_costs (graph nav) →
  ucs_search fuel nav s t = Some (Found p c d tl) →
  NoDup (w_loc <$> p).
Proof.
  intros Hnn Hsearch.
  assert (is_Some (graph nav !! s) ∧ is_Some (graph nav !! t)) as [Hs Ht].
  { apply ucs_search_outcome in Hsearch as [[? _]|(? & ? & _)]; done. }
  rewrite ucs_search_known in Hsearch by done.
  eapply (ucs_loop_inv _ _ (frontier_simple (graph nav) s))
    in Hsearch as [[? _]|(pq0 & vis0 & c0 & p0 & pq' & [_ Hsimple] & Hpop & _ & Hfound)];
    [done| | | |].
  - assert (p0 = p) as ->. { destruct (list.last p0); by simplify_eq. }
    rewrite list.Forall_forall in Hsimple.
    by destruct (Hsimple _ (heappop_elem_of _ _ _ Hpop)) as [Hnd _].
  - intros. by eapply frontier_simple_skip.
  - intros. by eapply frontier_simple_step.
  - apply frontier_simple_start.
Qed.

(** X6 at the network of A, B and C. *)
Lemma found_ledger_no_repeat_witness :
  nonneg_costs (graph abc_network) ∧
  ucs_search 3 abc_network "A" "C" =
    Some (Found abc_ledger (Q2Qc (192 # 1)) (Q2Qc (135 # 1)) (Q2Qc (275 # 1))) ∧
  NoDup (w_loc <$> abc_ledger).
Proof.
  split_and!; [exact abc_network_nonneg|exact abc_network_search|].
  exact (found_ledger_no_repeat 3 abc_network "A" "C" abc_ledger
           (Q2Qc (192 # 1)) (Q2Qc (135 # 1)) (Q2Qc (275 # 1))
           abc_network_nonneg abc_network_search).
Defined.

(** X2 at the two islands. *)
Lemma ucs_search_complete_witness :
  ucs_search 2 islands "A" "B" = Some NoRoute ∧
  ¬ walk (graph islands) "A" [] "B".
Proof.
  split; [exact islands_search|].
  exact (ucs_search_complete 2 islands "A" "B" [] islands_search).
Defined.

(** X3 at the network of A, B and C, from the direct highway A-C. *)
Lemma ucs_search_finds_route_witness :
  let direct := Edge "C" (highway_cost (Q2Qc (200 # 1)) 1 0) (Q2Qc (200 # 1)) 1 0 "" in
  nonneg_costs (graph abc_network) ∧
  walk (graph abc_network) "A" [direct] "C" ∧
  ∃ es', walk (graph abc_network) "A" es' "C" ∧
         ucs_search (2 + total_records (graph abc_network)) abc_network "A" "C" =
           Some (Found (ledger_of "A" es') (path_cost es')
                   (total e_distance es') (total e_toll es')) ∧
         path_cost es' ≤ path_cost [direct].
Proof.
  intros direct.
  assert (walk (graph abc_network) "A" [direct] "C") as Hwalk.
  { apply (walk_snoc _ _ [] "A" direct); [constructor|].
    vm_compute. repeat constructor. }
  split_and!; [exact abc_network_nonneg|exact Hwalk|].
  refine (ucs_search_finds_route abc_network "A" "C" [direct]
            abc_network_nonneg _ _ Hwalk); vm_compute; eauto.
Defined.

(** ** A highway of negative cost *)

Section NegativeHighway.
Variables (g : gmap string (list edge)) (a b t : string) (ea eb : edge) (w : Qc).
Hypothesis Hab : a ≠ b.
Hypothesis Hta : t ≠ a.
Hypothesis Htb : t ≠ b.
Hypothesis Hga : g !! a = Some [ea].
Hypothesis Hgb : g !! b = Some [eb].
Hypothesis Hea : e_to ea = b ∧ e_cost ea = w.
Hypothesis Heb : e_to eb = a ∧ e_cost eb = w.
Hypothesis Hw : w < 0.





End NegativeHighway.



(** ** Networks built by calls of the two methods *)

Lemma add_highway_neighbors from_loc to_loc d tf toll label nav k :
  neighbors_of (graph (add_highway from_loc to_loc d tf toll label nav)) k =
    neighbors_of (graph nav) k
    ++ (if decide (k = from_loc)
        then [Edge to_loc (highway_cost d tf toll) d tf toll label] else [])
    ++ (if decide (k = to_loc)
        then [Edge from_loc (highway_cost d tf toll) d tf toll label] else []).
Proof.
  unfold neighbors_of at 1. rewrite add_highway_lookup.
  case_decide as Hk; [done|].
  rewrite !decide_False by tauto. by rewrite !app_nil_r.
Qed.

Lemma add_location_neighbors location_id name nav k :
  neighbors_of (graph (add_location location_id name nav)) k = neighbors_of (graph nav) k.
Proof. apply ensure_entry_neighbors. Qed.

(** A property of the navigator that both methods keep holds after any
    sequence of calls. *)
Lemma apply_calls_ind (P : navigator → Prop) cs nav :
  (∀ nav location_id name, P nav → P (add_location location_id name nav)) →
  (∀ nav from_loc to_loc d tf toll label,
     P nav → P (add_highway from_loc to_loc d tf toll label nav)) →
  P nav → P (apply_calls cs nav).
Proof.
  intros Hloc Hhw. unfold apply_calls. revert nav.
  induction cs as [|c cs IH]; intros nav Hnav; [done|].
  simpl. apply IH. destruct c; simpl; auto.
Qed.

Lemma mirrored_add_highway from_loc to_loc d tf toll label nav :
  mirrored (graph nav) →
  mirrored (graph (add_highway from_loc to_loc d tf toll label nav)).
Proof.
  intros Hm a e. rewrite !add_highway_neighbors, !elem_of_app.
  intros [He|[He|He]].
  - left. by apply Hm.
  - case_decide as Ha; [|by apply elem_of_nil in He].
    apply list_elem_of_singleton in He as ->. subst a. simpl.
    right. right. rewrite decide_True by done. apply list_elem_of_here.
  - case_decide as Ha; [|by apply elem_of_nil in He].
    apply list_elem_of_singleton in He as ->. subst a. simpl.
    right. left. rewrite decide_True by done. apply list_elem_of_here.
Qed.

Lemma mirrored_calls cs : mirrored (graph (apply_calls cs init)).
Proof.
  apply (apply_calls_ind (λ nav, mirrored (graph nav))).
  - intros nav location_id name Hm a e. rewrite !add_location_neighbors. apply Hm.
  - intros. by apply mirrored_add_highway.
  - intros a e He. unfold neighbors_of in He. simpl in He.
    rewrite lookup_empty in He. by apply elem_of_nil in He.
Qed.

Lemma registered_in_graph cs k :
  is_Some (locations (apply_calls cs init) !! k) →
  is_Some (graph (apply_calls cs init) !! k).
Proof.
  apply (apply_calls_ind
           (λ nav, is_Some (locations nav !! k) → is_Some (graph nav !! k))).
  - intros nav location_id name IH. simpl.
    rewrite ensure_entry_lookup, lookup_insert.
    case_decide; [eauto|done].
  - intros nav from_loc to_loc d tf toll label IH Hk.
    rewrite add_highway_lookup. case_decide; [eauto|]. by apply IH.
  - simpl. rewrite lookup_empty. by intros [? ?].
Qed.

(** X8. In a network built from the empty one by calls of [add_location] and
    [add_highway], every highway can be taken from both ends: a record in the
    list of [a] that leads to [b] has a record in the list of [b] that leads
    to [a], with the same cost, distance, traffic, toll and name. *)
Theorem highways_run_both_ways cs a e :
  e ∈ neighbors_of (graph (apply_calls cs init)) a →
  Edge a (e_cost e) (e_distance e) (e_traffic e) (e_toll e) (e_highway e)
    ∈ neighbors_of (graph (apply_calls cs init)) (e_to e).
Proof. apply mirrored_calls. Qed.

(** X9. In such a network every location with a display name is a key of the
    graph, so a search between two named locations, as [main] starts it
    after its check of lines 393-395, never takes the unknown-location
    branch. *)
Theorem registered_locations_known cs fuel s t :
  is_Some (locations (apply_calls cs init) !! s) →
  is_Some (locations (apply_calls cs init) !! t) →
  is_Some (graph (apply_calls cs init) !! s) ∧
  is_Some (graph (apply_calls cs init) !! t) ∧
  ucs_search fuel (apply_calls cs init) s t ≠ Some UnknownLocation.
Proof.
  intros Hs%registered_in_graph Ht%registered_in_graph. split_and!; [done..|].
  intros [[_ [H|H]]|(_ & _ & [?|(? & _ & ?)])]%ucs_search_outcome; try done.
  - rewrite H in Hs. by destruct Hs.
  - rewrite H in Ht. by destruct Ht.
Qed.

(** ** Paths taken backwards *)





(** X8 at one highway from A to B. *)
Lemma highways_run_both_ways_witness :
  let cs := [AddHighway "A" "B" 1 1 0 "NLEX"] in
  let e := Edge "B" (highway_cost 1 1 0) 1 1 0 "NLEX" in
  e ∈ neighbors_of (graph (apply_calls cs init)) "A" ∧
  Edge "A" (e_cost e) (e_distance e) (e_traffic e) (e_toll e) (e_highway e)
    ∈ neighbors_of (graph (apply_calls cs init)) (e_to e).
Proof.
  intros cs e.
  assert (e ∈ neighbors_of (graph (apply_calls cs init)) "A") as He.
  { vm_compute. repeat constructor. }
  split; [exact He|]. exact (highways_run_both_ways cs "A" e He).
Defined.

(** X9 at two registered locations. *)
Lemma registered_locations_known_witness :
  let cs := [AddLocation "A" "Alpha"; AddLocation "B" "Beta"] in
  is_Some (locations (apply_calls cs init) !! "A"%string) ∧
  is_Some (locations (apply_calls cs init) !! "B"%string) ∧
  is_Some (graph (apply_calls cs init) !! "A"%string) ∧
  is_Some (graph (apply_calls cs init) !! "B"%string) ∧
  ucs_search 2 (apply_calls cs init) "A" "B" ≠ Some UnknownLocation.
Proof.
  intros cs.
  assert (is_Some (locations (apply_calls cs init) !! "A"%string)) as Ha
    by (vm_compute; eauto).
  assert (is_Some (locations (apply_calls cs init) !! "B"%string)) as Hb
    by (vm_compute; eauto).
  split_and!; [exact Ha|exact Hb|..];
    apply (registered_locations_known cs 2 "A" "B" Ha Hb).
Defined.


(** ** Network statistics *)

Lemma total_records_insert g k l :
  g !! k = None → total_records (<[k := l]> g) = (length l + total_records g)%nat.
Proof.
  intros Hk. unfold total_records. by rewrite map_to_list_insert.
Qed.

Lemma total_records_ensure_entry g k :
  total_records (ensure_entry k g) = total_records g.
Proof.
  unfold ensure_entry. destruct (g !! k) eqn:Hk; [done|].
  by rewrite total_records_insert.
Qed.

Lemma total_records_append_record g k r :
  is_Some (g !! k) → total_records (append_record k r g) = S (total_records g).
Proof.
  intros [l Hl]. unfold append_record.
  rewrite <- (insert_delete_id g k l Hl) at 1.
  rewrite alter_insert_eq, total_records_insert by apply lookup_delete_eq.
  rewrite <- (insert_delete_id g k l Hl) at 2.
  rewrite total_records_insert by apply lookup_delete_eq.
  rewrite length_app. simpl. lia.
Qed.

Lemma total_records_add_highway from_loc to_loc d tf toll label nav :
  total_records (graph (add_highway from_loc to_loc d tf toll label nav)) =
    (2 + total_records (graph nav))%nat.
Proof.
  unfold add_highway. cbn [graph].
  rewrite !total_records_append_record, !total_records_ensure_entry; [done|..].
  - rewrite ensure_entry_lookup. case_decide; [eauto|].
    rewrite ensure_entry_lookup, decide_True by done. eauto.
  - rewrite append_record_lookup, !ensure_entry_lookup.
    repeat case_decide; simpl; eauto; congruence.
Qed.

Lemma total_records_calls cs nav :
  total_records (graph (apply_calls cs nav)) =
    (2 * length (filter (λ c, is_highway_call c = true) cs)
     + total_records (graph nav))%nat.
Proof.
  unfold apply_calls. revert nav. induction cs as [|c cs IH]; intros nav; [done|].
  simpl. rewrite IH. destruct c as [location_id name|from_loc to_loc d tf toll label].
  - rewrite filter_cons_False by done. simpl.
    by rewrite total_records_ensure_entry.
  - rewrite filter_cons_True by done.
    change (apply_call nav (AddHighway from_loc to_loc d tf toll label))
      with (add_highway from_loc to_loc d tf toll label nav).
    rewrite total_records_add_highway. simpl. lia.
Qed.

Lemma locations_calls cs nav :
  dom (locations (apply_calls cs nav)) =
    dom (locations nav)
    ∪ list_to_set (omap (λ c, match c with
                              | AddLocation location_id _ => Some location_id
                              | _ => None
                              end) cs).
Proof.
  unfold apply_calls. revert nav. induction cs as [|c cs IH]; intros nav.
  - simpl. by rewrite union_empty_r_L.
  - simpl. rewrite IH. destruct c as [location_id name|from_loc to_loc d tf toll label].
    + simpl. rewrite dom_insert_L. apply set_eq. intros x.
      rewrite !elem_of_union. tauto.
    + done.
Qed.

(** X11. For a network built from the empty one by calls of the two methods,
    the number of highway connections that [analyze_algorithm] reports is the
    number of calls of [add_highway], and the number of locations is the
    number of different identifiers passed to [add_location]. *)
Theorem network_statistics cs :
  total_highways (apply_calls cs init) =
    length (filter (λ c, is_highway_call c = true) cs) ∧
  total_locations (apply_calls cs init) =
    size (list_to_set (C := gset string)
            (omap (λ c, match c with
                        | AddLocation location_id _ => Some location_id
                        | _ => None
                        end) cs)).
Proof.
  split.
  - unfold total_highways. rewrite total_records_calls.
    assert (total_records (graph init) = 0%nat) as -> by done.
    rewrite Nat.add_0_r, Nat.mul_comm. by apply Nat.div_mul.
  - unfold total_locations. rewrite <- size_dom, locations_calls.
    simpl. by rewrite dom_empty_L, union_empty_l_L.
Qed.

(** ** The report of a route *)




(** X13. [analyze_algorithm], given what a finished [ucs_search] returned,
    reports a route with its trip metrics exactly when the search found one;
    after either failure it takes its no-route branch. *)
Theorem metrics_iff_found fuel nav s t o :
  ucs_search fuel nav s t = Some o →
  ∃ r, return_value o = Some r ∧
       (is_Some (analyze_algorithm r) ↔ ∃ p c d tl, o = Found p c d tl).
Proof.
  intros [[-> _]|(_ & _ & [->|(es & _ & ->)])]%ucs_search_outcome; simpl.
  - eexists. split; [done|]. split; [by intros [? ?]|by intros (? & ? & ? & ? & ?)].
  - eexists. split; [done|]. split; [by intros [? ?]|by intros (? & ? & ? & ? & ?)].
  - eexists. split; [done|]. split; eauto 10.
Qed.

(** X13 at the search between the two islands. *)
Lemma metrics_iff_found_witness :
  ucs_search 2 islands "A" "B" = Some NoRoute ∧
  ∃ r, return_value NoRoute = Some r ∧
       (is_Some (analyze_algorithm r) ↔ ∃ p c d tl, NoRoute = Found p c d tl).
Proof.
  split; [exact islands_search|].
  exact (metrics_iff_found 2 islands "A" "B" NoRoute islands_search).
Defined.

(** X14. In the last display of [main], which passes the returned ledger as
    [path], a location is marked as on the path exactly when the ledger
    visits it, no location is marked current or visited, and start and goal
    are both marked. *)
Theorem final_display_marks_route fuel nav s t p c d tl loc :
  ucs_search fuel nav s t = Some (Found p c d tl) →
  location_status None None (Some p) loc =
    (if decide (loc ∈ w_loc <$> p) then OnPath else NoStatus) ∧
  location_status None None (Some p) s = OnPath ∧
  location_status None None (Some p) t = OnPath.
Proof.
  intros (es & Hwalk & -> & _)%ucs_search_found.
  assert (∀ x, location_status None None (Some (ledger_of s es)) x =
               if decide (x ∈ w_loc <$> ledger_of s es) then OnPath else NoStatus)
    as Hstatus.
  { intros x. unfold location_status, ledger_of.
    destruct (decide _) as [Hin|Hin].
    - by rewrite bool_decide_eq_true_2.
    - by rewrite bool_decide_eq_false_2. }
  split_and!; [done|..]; rewrite Hstatus, decide_True; try done.
  - rewrite ledger_of_locs. apply list_elem_of_here.
  - pose proof (last_ledger_of s es) as [q Hq]%last_Some.
    rewrite Hq, fmap_app, elem_of_app. right.
    simpl. rewrite (waypoint_after_loc _ _ _ _ Hwalk). apply list_elem_of_here.
Qed.

(** X14 at the network of A, B and C, for location B. *)
Lemma final_display_marks_route_witness :
  ucs_search 3 abc_network "A" "C" =
    Some (Found abc_ledger (Q2Qc (192 # 1)) (Q2Qc (135 # 1)) (Q2Qc (275 # 1))) ∧
  location_status None None (Some abc_ledger) "B" =
    (if decide ("B"%string ∈ w_loc <$> abc_ledger) then OnPath else NoStatus) ∧
  location_status None None (Some abc_ledger) "A" = OnPath ∧
  location_status None None (Some abc_ledger) "C" = OnPath.
Proof.
  split; [exact abc_network_search|].
  exact (final_display_marks_route 3 abc_network "A" "C" abc_ledger
           (Q2Qc (192 # 1)) (Q2Qc (135 # 1)) (Q2Qc (275 # 1)) "B"
           abc_network_search).
Defined.

(** ** The scenarios and [main] *)

Lemma py_index_is_Some {A} (l : list A) i :
  is_Some (py_index l i) ↔ (- Z.of_nat (length l) ≤ i < Z.of_nat (length l))%Z.
Proof.
  unfold py_index. repeat case_decide; rewrite ?lookup_lt_is_Some.
  - lia.
  - lia.
  - split; [by intros [? ?]|lia].
Qed.

Lemma select_scenario_is_Some n :
  is_Some (select_scenario n) ↔ (-2 ≤ n ≤ 3)%Z.
Proof.
  split.
  - unfold select_scenario. intros Hsel.
    assert (is_Some (py_index (create_philippine_highway_scenarios.*1) (n - 1))) as Hi.
    { destruct (py_index _ _); [eauto|by destruct Hsel]. }
    apply py_index_is_Some in Hi. simpl in Hi. lia.
  - intros Hn.
    assert (n = -2 ∨ n = -1 ∨ n = 0 ∨ n = 1 ∨ n = 2 ∨ n = 3)%Z
      as [->|[->|[->|[->|[->| ->]]]]] by lia; vm_compute; eauto.
Qed.

(** X15. The selection of [main] accepts the integers from -2 to 3 and no
    other: 1, 2 and 3 select the scenarios in the order of their creation,
    and 0, -1 and -2 select the third, second and first one, because the
    index [n - 1] then counts from the end of the list of names. *)
Theorem scenario_selection n :
  (is_Some (select_scenario n) ↔ (-2 ≤ n ≤ 3)%Z) ∧
  select_scenario 1 = Some scenario1 ∧
  select_scenario 2 = Some scenario2 ∧
  select_scenario 3 = Some scenario3 ∧
  select_scenario 0 = Some scenario3 ∧
  select_scenario (-1) = Some scenario2 ∧
  select_scenario (-2) = Some scenario1.
Proof. split; [apply select_scenario_is_Some|]. by split_and!. Qed.

Lemma all_routes_found_spec fuel nav s t :
  all_routes_found fuel nav = true →
  is_Some (locations nav !! s) → is_Some (locations nav !! t) →
  ∃ p c d tl, ucs_search fuel nav s t = Some (Found p c d tl).
Proof.
  unfold all_routes_found. intros Hall [ns Hs] [nt Ht].
  assert (∀ k n, locations nav !! k = Some n → In k (registered nav)) as Hin.
  { intros k n Hk. apply list_elem_of_In, list_elem_of_fmap.
    exists (k, n). split; [done|]. by apply elem_of_map_to_list. }
  rewrite forallb_forall in Hall. specialize (Hall s (Hin _ _ Hs)).
  rewrite forallb_forall in Hall. specialize (Hall t (Hin _ _ Ht)).
  destruct (ucs_search fuel nav s t) as [[p c d tl| | |]|]; try done. eauto.
Qed.

Lemma scenario_cases name nav :
  (name, nav) ∈ create_philippine_highway_scenarios →
  nav = scenario1 ∨ nav = scenario2 ∨ nav = scenario3.
Proof.
  unfold create_philippine_highway_scenarios.
  rewrite !elem_of_cons, elem_of_nil. intros [H|[H|[H|[]]]]; simplify_eq; auto.
Qed.

Lemma scenarios_all_routes name nav :
  (name, nav) ∈ create_philippine_highway_scenarios →
  all_routes_found 24 nav = true.
Proof.
  intros [->|[->| ->]]%scenario_cases; by vm_compute.
Qed.

Lemma scenarios_nonneg name nav :
  (name, nav) ∈ create_philippine_highway_scenarios → nonneg_costs (graph nav).
Proof.
  intros [->|[->| ->]]%scenario_cases; apply nonneg_costs_check;
    apply (bool_decide_unpack _); by vm_compute.
Qed.

Lemma scenarios_same_keys name nav :
  (name, nav) ∈ create_philippine_highway_scenarios →
  dom (graph nav) = dom (locations nav).
Proof.
  intros [->|[->| ->]]%scenario_cases; apply (bool_decide_unpack _); by vm_compute.
Qed.

(** X16. In each of the three scenarios every highway joins locations that
    have a display name, no cost is negative, and a search between any two
    named locations returns a route within 24 iterations. *)
Theorem scenarios_connected name nav s t fuel :
  (name, nav) ∈ create_philippine_highway_scenarios →
  is_Some (locations nav !! s) → is_Some (locations nav !! t) →
  dom (graph nav) = dom (locations nav) ∧
  nonneg_costs (graph nav) ∧
  ∃ p c d tl, ucs_search (24 + fuel) nav s t = Some (Found p c d tl).
Proof.
  intros Hnav Hs Ht. split_and!.
  - by eapply scenarios_same_keys.
  - by eapply scenarios_nonneg.
  - destruct (all_routes_found_spec 24 nav s t) as (p & c & d & tl & Hfound);
      [by eapply scenarios_all_routes|done..|].
    exists p, c, d, tl. eapply ucs_search_fuel_mono; [|done]. lia.
Qed.

(** X16 at the first scenario, from Metro Manila to Baguio City. *)
Lemma scenarios_connected_witness :
  ("Northern Luzon Network"%string, scenario1) ∈ create_philippine_highway_scenarios ∧
  is_Some (locations scenario1 !! "MNL"%string) ∧
  is_Some (locations scenario1 !! "BAG"%string) ∧
  dom (graph scenario1) = dom (locations scenario1) ∧
  nonneg_costs (graph scenario1) ∧
  ∃ p c d tl, ucs_search (24 + 0) scenario1 "MNL" "BAG" = Some (Found p c d tl).
Proof.
  assert (("Northern Luzon Network"%string, scenario1)
            ∈ create_philippine_highway_scenarios) as Hin
    by apply list_elem_of_here.
  assert (is_Some (locations scenario1 !! "MNL"%string)) as Hs by (vm_compute; eauto).
  assert (is_Some (locations scenario1 !! "BAG"%string)) as Ht by (vm_compute; eauto).
  split_and!; [exact Hin|exact Hs|exact Ht|..];
    apply (scenarios_connected _ scenario1 "MNL" "BAG" 0 Hin Hs Ht).
Defined.



(** ** The travel time *)







(** A distance of 119.6 is shown as 1 hour and 60 minutes. *)
Example travel_time_1h_60min : travel_time (Q2Qc (1196 # 10)) = (1, 60)%Z.
Proof. by vm_compute. Qed.
